(** * Broker: reliable channel, master state machine and address masking

    A shallow embedding of
    - [include/broker/detail/channel.hh] (producer and consumer halves of the
      reliable ordered channel),
    - the master actor's command handlers ([master_state::operator()]),
    - [address::mask] and [to_array] of [src/address.cc],
    - the send-rate sampling and the batching of [src/publisher.cc],
    - the message classes of [broker/bro.hh],
    together with the properties the specification states about them and
    further properties read from the code. *)

From Stdlib Require Import String.
From Stdlib Require Import ZArith List Bool Lia Sorted.
Import ListNotations.

Local Open Scope Z_scope.

(** ** Fixed-width integers

    [sequence_number_type] is [uint64_t]; the idle counters of the consumer
    are [uint8_t].  Values are kept in [Z] and every increment is written
    with its wrap-around. *)

Definition wrap64 (z : Z) : Z := z mod 2 ^ 64.
Definition wrap32 (z : Z) : Z := z mod 2 ^ 32.
Definition wrap8 (z : Z) : Z := z mod 2 ^ 8.

(** ** Error codes ([enum class ec])

    [consumer_exists] is returned by [producer::add] in [channel.hh]; the
    enumeration under [src/] does not list it and it is added here as a
    further code. *)
Inductive ec : Type :=
| ec_none | unspecified | peer_incompatible | peer_invalid | peer_unavailable
| peer_disconnect_during_handshake | peer_timeout | master_exists
| no_such_master | no_such_key | request_timeout | type_clash | invalid_data
| backend_failure | stale_data | cannot_open_file | cannot_write_file
| invalid_topic_key | end_of_file | invalid_tag | invalid_status
| consumer_exists.

(** [zseq start len] is [start; start+1; ...; start+len-1]. *)
Fixpoint zseq (start : Z) (len : nat) : list Z :=
  match len with
  | O => []
  | S len' => start :: zseq (start + 1) len'
  end.

(** [std::find_if(first, last, pred)] followed by [erase(first, it)]: the
    list from the first element satisfying [pred] on. *)
Fixpoint erase_until {A : Type} (pred : A -> bool) (l : list A) : list A :=
  match l with
  | [] => []
  | x :: l' => if pred x then l else erase_until pred l'
  end.

(** Elementary facts about [zseq] and [filter]. *)
Lemma zseq_app (s : Z) (a b : nat) :
  zseq s (a + b) = zseq s a ++ zseq (s + Z.of_nat a) b.
Proof.
  revert s; induction a as [|a IH]; intros s.
  - simpl. now rewrite Z.add_0_r.
  - cbn [Nat.add zseq app]. rewrite IH. do 3 f_equal. lia.
Qed.

Lemma zseq_In (x s : Z) (n : nat) :
  In x (zseq s n) -> s <= x < s + Z.of_nat n.
Proof.
  revert s; induction n as [|n IH]; intros s; [intros []|].
  cbn [zseq In]. intros [<-|H]; [lia|]. apply IH in H. lia.
Qed.


Lemma last_In {A : Type} (l : list A) (d : A) : l <> [] -> In (last l d) l.
Proof.
  induction l as [|x l IH]; [congruence|intros _].
  destruct l as [|y l]; [now left|]. right. apply IH. discriminate.
Qed.

(** ** The channel *)

Module Channel.

(** [struct event]. *)
Record event (Payload : Type) : Type := mk_event { ev_seq : Z; content : Payload }.

Arguments mk_event {Payload} _ _.
Arguments ev_seq {Payload} _.
Arguments content {Payload} _.

(** *** The producer half *)

Module Producer.

Set Implicit Arguments.

Section Producer.

Variable Handle : Type.
(** [operator==] on handles. *)
Variable Handle_eqb : Handle -> Handle -> bool.
Variable Payload : Type.

Local Abbreviation event := (event Payload).

(** [producer::path]: consumer handle, offset and last acknowledged
    sequence number. *)
Record path : Type := mk_path { hdl : Handle; offset : Z; acked : Z }.

(** What the producer hands to [backend_->send]. *)
Inductive producer_output : Type :=
| send_paths (ps : list path) (e : event)
| send_handshake (h : Handle) (first_seq : Z)
| send_event (h : Handle) (e : event)
| send_retransmit_failed (h : Handle) (seq : Z).

(** [class producer]: [seq_], [buf_] and [paths_]. *)
Record producer : Type := mk_producer {
  seq_ : Z;
  buf_ : list event;
  paths_ : list path
}.

Definition producer_init : producer := mk_producer 0 [] [].

(** [produce]: [++seq_], append to the buffer, one fan-out send. *)
Definition produce (p : producer) (c : Payload)
  : producer * list producer_output :=
  let s := wrap64 (seq_ p + 1) in
  let e := mk_event s c in
  (mk_producer s (buf_ p ++ [e]) (paths_ p), [send_paths (paths_ p) e]).

(** [idle]: every path has acknowledged [seq_]. *)
Definition idle (p : producer) : bool :=
  forallb (fun x => acked x =? seq_ p) (paths_ p).

Definition find_path (h : Handle) (ps : list path) : option path :=
  find (fun x => Handle_eqb (hdl x) h) ps.

Definition find_event (s : Z) (b : list event) : option event :=
  find (fun x => ev_seq x =? s) b.

(** [add]: the returned [error] is [Some consumer_exists] or [None]
    for [nil]. *)
Definition add (p : producer) (h : Handle)
  : producer * list producer_output * option ec :=
  match find_path h (paths_ p) with
  | Some _ => (p, [], Some consumer_exists)
  | None =>
      let off := wrap64 (seq_ p + 1) in
      (mk_producer (seq_ p) (buf_ p) (paths_ p ++ [mk_path h off (seq_ p)]),
       [send_handshake h off], None)
  end.

(** The loop of [handle_ack] over [paths_]: the path of [h] gets [seq],
    the others contribute to the minimum. *)
Fixpoint ack_loop (h : Handle) (seq : Z) (ps : list path) (acc : Z)
  : list path * Z :=
  match ps with
  | [] => ([], acc)
  | x :: ps' =>
      if Handle_eqb (hdl x) h
      then let (r, a) := ack_loop h seq ps' acc in
           (mk_path (hdl x) (offset x) seq :: r, a)
      else let (r, a) := ack_loop h seq ps' (Z.min (acked x) acc) in
           (x :: r, a)
  end.

Definition handle_ack (p : producer) (h : Handle) (seq : Z) : producer :=
  let (ps, a) := ack_loop h seq (paths_ p) seq in
  let not_acked := fun x : event => ev_seq x >? a in
  mk_producer (seq_ p) (erase_until not_acked (buf_ p)) ps.

(** The resend loop of [handle_nack]. *)
Definition resend (h : Handle) (b : list event) (s : Z) : producer_output :=
  match find_event s b with
  | Some e => send_event h e
  | None => send_retransmit_failed h s
  end.

Definition handle_nack (p : producer) (h : Handle) (seqs : list Z)
  : producer * list producer_output :=
  match seqs with
  | [] => (p, [])
  | first :: _ =>
      match find_path h (paths_ p) with
      | None => (p, [])
      | Some x =>
          if first =? 0 then (p, [send_handshake h (offset x)])
          else
            let p' := handle_ack p h (wrap64 (first - 1)) in
            (p', map (resend h (buf_ p')) seqs)
      end
  end.

(** Calls made on a producer, and their execution in order. *)
Inductive producer_call : Type :=
| call_produce (c : Payload)
| call_handle_ack (h : Handle) (seq : Z).

Definition producer_step (p : producer) (c : producer_call)
  : producer * list producer_output :=
  match c with
  | call_produce x => produce p x
  | call_handle_ack h s => (handle_ack p h s, [])
  end.

Fixpoint producer_run (p : producer) (cs : list producer_call)
  : producer * list producer_output :=
  match cs with
  | [] => (p, [])
  | c :: cs' =>
      let (p1, o1) := producer_step p c in
      let (p2, o2) := producer_run p1 cs' in
      (p2, o1 ++ o2)
  end.

(** A fresh producer on which the handles [hs] were added in order. *)
Definition add_all (hs : list Handle) : producer :=
  fold_left (fun p h => fst (fst (add p h))) hs producer_init.

(** The events handed out by [produce], in order. *)
Fixpoint produced (o : list producer_output) : list event :=
  match o with
  | [] => []
  | send_paths _ e :: o' => e :: produced o'
  | _ :: o' => produced o'
  end.

(** Minimum of [acked] over the paths; with no path at all nothing has
    been acknowledged. *)
Definition min_acked (ps : list path) : Z :=
  match ps with
  | [] => 0
  | x :: ps' => fold_left Z.min (map acked ps') (acked x)
  end.

Definition registered (h : Handle) (p : producer) : Prop :=
  exists x, In x (paths_ p) /\ Handle_eqb (hdl x) h = true.

Definition is_produce (c : producer_call) : bool :=
  match c with call_produce _ => true | call_handle_ack _ _ => false end.

Definition count_produce (cs : list producer_call) : nat :=
  length (filter is_produce cs).

(** An acknowledgement that stays below [seq_]. *)
Definition ack_bounded (p : producer) (_ : Handle) (s : Z) : Prop :=
  0 <= s <= seq_ p.

(** An acknowledgement as an honest consumer sends it: the producer has a
    path, the value is not below what the path of [h] (if any) acknowledged
    before, and not above [seq_]. *)
Definition ack_honest (p : producer) (h : Handle) (s : Z) : Prop :=
  paths_ p <> []
  /\ (forall x, In x (paths_ p) -> Handle_eqb (hdl x) h = true -> acked x <= s)
  /\ 0 <= s <= seq_ p.

(** [calls_sat ok p cs]: every [handle_ack] of [cs] satisfies [ok] in the
    state it is called in. *)
Fixpoint calls_sat (ok : producer -> Handle -> Z -> Prop) (p : producer)
  (cs : list producer_call) : Prop :=
  match cs with
  | [] => True
  | c :: cs' =>
      match c with
      | call_produce _ => True
      | call_handle_ack h s => ok p h s
      end /\ calls_sat ok (fst (producer_step p c)) cs'
  end.

(** The buffer holds exactly the produced events above the minimum
    acknowledged sequence number. *)
Definition buffer_exact (p : producer) (o : list producer_output) : Prop :=
  buf_ p = filter (fun e => min_acked (paths_ p) <? ev_seq e) (produced o).

(** The invariant behind [buffer_exact]; [P] is the list of all events
    produced so far. *)
Definition producer_inv (P : list event) (p : producer) : Prop :=
  seq_ p = Z.of_nat (length P)
  /\ map ev_seq P = zseq 1 (length P)
  /\ Forall (fun x => 0 <= acked x <= seq_ p) (paths_ p)
  /\ buf_ p = skipn (Z.to_nat (min_acked (paths_ p))) P.

(** The same path with [acked] replaced when the handle matches. *)
Definition set_acked (h : Handle) (seq : Z) (x : path) : path :=
  if Handle_eqb (hdl x) h then mk_path (hdl x) (offset x) seq else x.

Unset Implicit Arguments.

(** *** Facts about the producer *)

(** Pruning a run of consecutive sequence numbers. *)
Lemma erase_until_consecutive (L : list event) (s a : Z) :
  map ev_seq L = zseq s (length L) ->
  erase_until (fun x => ev_seq x >? a) L = skipn (Z.to_nat (a - s + 1)) L.
Proof.
  revert s; induction L as [|e L IH]; intros s H.
  - now rewrite skipn_nil.
  - cbn [map length zseq] in H. injection H as He HL.
    cbn [erase_until]. rewrite He.
    destruct (Z.gtb_spec s a) as [Hlt|Hge].
    + replace (Z.to_nat (a - s + 1)) with 0%nat by lia. reflexivity.
    + rewrite (IH _ HL).
      replace (Z.to_nat (a - s + 1)) with (S (Z.to_nat (a - (s + 1) + 1))) by lia.
      reflexivity.
Qed.

Lemma filter_consecutive (L : list event) (s a : Z) :
  map ev_seq L = zseq s (length L) ->
  filter (fun x => a <? ev_seq x) L = skipn (Z.to_nat (a - s + 1)) L.
Proof.
  revert s; induction L as [|e L IH]; intros s H.
  - now rewrite skipn_nil.
  - cbn [map length zseq] in H. injection H as He HL.
    cbn [filter]. rewrite He, (IH _ HL).
    destruct (Z.ltb_spec a s) as [Hlt|Hge].
    + replace (Z.to_nat (a - s + 1)) with 0%nat by lia.
      replace (Z.to_nat (a - (s + 1) + 1)) with 0%nat by lia. reflexivity.
    + replace (Z.to_nat (a - s + 1)) with (S (Z.to_nat (a - (s + 1) + 1))) by lia.
      reflexivity.
Qed.

Lemma skipn_consecutive (L : list event) (s : Z) (k : nat) :
  map ev_seq L = zseq s (length L) ->
  map ev_seq (skipn k L) = zseq (s + Z.of_nat k) (length (skipn k L)).
Proof.
  revert s k; induction L as [|e L IH]; intros s k H.
  - now rewrite skipn_nil.
  - destruct k as [|k].
    + cbn [skipn]. now rewrite Z.add_0_r.
    + cbn [map length zseq] in H. injection H as He HL.
      cbn [skipn]. rewrite (IH _ k HL). f_equal. lia.
Qed.

(** What [ack_loop] returns. *)
Lemma ack_loop_paths (h : Handle) (seq : Z) (ps : list path) (acc : Z) :
  fst (ack_loop h seq ps acc) = map (set_acked h seq) ps.
Proof.
  revert acc; induction ps as [|x ps IH]; intros acc; [reflexivity|].
  cbn [ack_loop map]. unfold set_acked at 1.
  destruct (Handle_eqb (hdl x) h).
  - specialize (IH acc). destruct (ack_loop h seq ps acc). simpl in *. now f_equal.
  - specialize (IH (Z.min (acked x) acc)).
    destruct (ack_loop h seq ps (Z.min (acked x) acc)). simpl in *. now f_equal.
Qed.

Lemma ack_loop_min (h : Handle) (seq : Z) (ps : list path) (acc : Z) :
  let a := snd (ack_loop h seq ps acc) in
  a <= acc
  /\ (forall x, In x ps -> Handle_eqb (hdl x) h = false -> a <= acked x)
  /\ (a = acc \/ exists x, In x ps /\ Handle_eqb (hdl x) h = false /\ a = acked x).
Proof.
  revert acc; induction ps as [|x ps IH]; intros acc; cbn zeta.
  - simpl. repeat split; [lia | contradiction | now left].
  - cbn [ack_loop]. destruct (Handle_eqb (hdl x) h) eqn:E.
    + specialize (IH acc). destruct (ack_loop h seq ps acc) as [r a].
      cbn [snd] in *. destruct IH as (I1 & I2 & I3). repeat split; [exact I1 | |].
      * intros y [<-|Hy] Hn; [congruence | now apply I2].
      * destruct I3 as [->|(y & Hy & Hn & ->)]; [now left|].
        right. exists y. simpl. auto.
    + specialize (IH (Z.min (acked x) acc)).
      destruct (ack_loop h seq ps (Z.min (acked x) acc)) as [r a].
      cbn [snd] in *. destruct IH as (I1 & I2 & I3). repeat split; [lia | |].
      * intros y [<-|Hy] Hn; [lia | now apply I2].
      * destruct I3 as [->|(y & Hy & Hn & ->)].
        -- destruct (Z.min_spec (acked x) acc) as [[_ ->]|[_ ->]];
             [right; exists x; simpl; auto | now left].
        -- right. exists y. simpl. auto.
Qed.

Lemma fold_min_spec (l : list Z) (a : Z) :
  let m := fold_left Z.min l a in
  (m = a \/ In m l) /\ m <= a /\ (forall x, In x l -> m <= x).
Proof.
  revert a; induction l as [|b l IH]; intros a; cbn zeta.
  - simpl. repeat split; [now left | lia | contradiction].
  - cbn [fold_left]. destruct (IH (Z.min a b)) as (I1 & I2 & I3).
    repeat split; [| lia |].
    + destruct I1 as [I1|I1]; [|right; now right].
      rewrite I1. destruct (Z.min_spec a b) as [[_ ->]|[_ ->]]; [now left|right; now left].
    + intros x [<-|Hx]; [lia | now apply I3].
Qed.

Lemma min_acked_spec (ps : list path) :
  ps <> [] ->
  (exists x, In x ps /\ acked x = min_acked ps)
  /\ (forall x, In x ps -> min_acked ps <= acked x).
Proof.
  destruct ps as [|x ps]; [congruence|intros _].
  unfold min_acked. destruct (fold_min_spec (map acked ps) (acked x)) as (I1 & I2 & I3).
  split.
  - destruct I1 as [I1|I1].
    + exists x. split; [now left | now rewrite I1].
    + apply in_map_iff in I1. destruct I1 as (y & Hy & Hin). exists y. split; [now right | exact Hy].
  - intros y [<-|Hy]; [exact I2|]. apply I3. now apply in_map.
Qed.

Lemma min_acked_unique (ps : list path) (m : Z) :
  (exists x, In x ps /\ acked x = m) ->
  (forall x, In x ps -> m <= acked x) ->
  min_acked ps = m.
Proof.
  intros (x & Hx & Hm) Hle.
  assert (Hne : ps <> []) by (intros ->; contradiction).
  destruct (min_acked_spec ps Hne) as ((y & Hy & Hy') & Hmin).
  specialize (Hle y Hy). specialize (Hmin x Hx). lia.
Qed.

Lemma min_acked_bounds (ps : list path) (n : Z) :
  0 <= n -> Forall (fun x => 0 <= acked x <= n) ps -> 0 <= min_acked ps <= n.
Proof.
  intros Hn HF. destruct ps as [|x ps]; [simpl; lia|].
  assert (Hne : x :: ps <> []) by discriminate.
  destruct (min_acked_spec _ Hne) as ((y & Hy & <-) & _).
  rewrite Forall_forall in HF. exact (HF y Hy).
Qed.

Lemma inv_produce (P : list event) (p : producer) (c : Payload) :
  producer_inv P p -> Z.of_nat (length P) + 1 < 2 ^ 64 ->
  producer_inv (P ++ produced (snd (produce p c))) (fst (produce p c)).
Proof.
  intros (Hs & HP & HF & Hb) Hlt. unfold produce. cbn [fst snd produced].
  assert (Hw : wrap64 (seq_ p + 1) = seq_ p + 1).
  { unfold wrap64. apply Z.mod_small. lia. }
  rewrite Hw. unfold producer_inv. cbn [seq_ buf_ paths_].
  rewrite length_app. cbn [length].
  assert (Hm := min_acked_bounds (paths_ p) (seq_ p) ltac:(lia) HF).
  repeat split.
  - lia.
  - rewrite map_app, zseq_app, HP. cbn [map zseq ev_seq]. do 2 f_equal. lia.
  - eapply Forall_impl; [|exact HF]. cbn beta. intros; lia.
  - rewrite skipn_app, Hb.
    replace (Z.to_nat (min_acked (paths_ p)) - length P)%nat with 0%nat by lia.
    reflexivity.
Qed.

Lemma inv_handle_ack (P : list event) (p : producer) (h : Handle) (s : Z) :
  producer_inv P p -> ack_honest p h s -> producer_inv P (handle_ack p h s).
Proof.
  intros (Hs & HP & HF & Hb) (Hne & Hmono & H0 & Hle).
  rewrite Forall_forall in HF.
  unfold handle_ack.
  pose proof (ack_loop_paths h s (paths_ p) s) as Hps.
  pose proof (ack_loop_min h s (paths_ p) s) as Hmin.
  destruct (ack_loop h s (paths_ p) s) as [ps a]. cbn [fst snd] in *. subst ps.
  destruct Hmin as (Ha & Hlow & Hhit).
  destruct (min_acked_spec _ Hne) as ((z & Hz & Ez) & Hall).
  assert (Hm0 : 0 <= min_acked (paths_ p)) by (rewrite <- Ez; apply (HF z Hz)).
  assert (Hnew : min_acked (map (set_acked h s) (paths_ p))
                 = Z.max a (min_acked (paths_ p))).
  { destruct (existsb (fun x => Handle_eqb (hdl x) h) (paths_ p)) eqn:Ex.
    - (* the handle has a path: the new minimum is [a] *)
      apply existsb_exists in Ex. destruct Ex as (x0 & Hx0 & Ex0).
      assert (Hold : min_acked (paths_ p) <= a).
      { destruct Hhit as [->|(y & Hy & _ & ->)].
        - specialize (Hall x0 Hx0). specialize (Hmono x0 Hx0 Ex0). lia.
        - now apply Hall. }
      rewrite Z.max_l by exact Hold.
      apply min_acked_unique.
      + destruct Hhit as [->|(y & Hy & Ey & ->)].
        * exists (set_acked h s x0). split; [now apply in_map|].
          unfold set_acked. now rewrite Ex0.
        * exists (set_acked h s y). split; [now apply in_map|].
          unfold set_acked. now rewrite Ey.
      + intros y Hy. apply in_map_iff in Hy. destruct Hy as (x & <- & Hx).
        unfold set_acked. destruct (Handle_eqb (hdl x) h) eqn:E;
          [exact Ha | now apply Hlow].
    - (* no path of that handle: the paths stay as they are *)
      assert (Hno : forall x, In x (paths_ p) -> Handle_eqb (hdl x) h = false).
      { intros x Hx. destruct (Handle_eqb (hdl x) h) eqn:E; [|reflexivity].
        assert (Ht : existsb (fun x => Handle_eqb (hdl x) h) (paths_ p) = true)
          by (apply existsb_exists; eauto).
        congruence. }
      assert (Hsame : map (set_acked h s) (paths_ p) = paths_ p).
      { rewrite <- (map_id (paths_ p)) at 2. apply map_ext_in.
        intros x Hx. unfold set_acked. now rewrite (Hno x Hx). }
      rewrite Hsame. rewrite Z.max_r; [reflexivity|].
      rewrite <- Ez. apply Hlow; [exact Hz | now apply Hno]. }
  unfold producer_inv. cbn [seq_ buf_ paths_]. rewrite Hnew.
  repeat split; [exact Hs | exact HP | |].
  - rewrite Forall_forall. intros y Hy. apply in_map_iff in Hy. destruct Hy as (x & <- & Hx).
    unfold set_acked. destruct (Handle_eqb (hdl x) h); [simpl; lia | now apply HF].
  - rewrite Hb.
    rewrite (erase_until_consecutive _ (1 + Z.of_nat (Z.to_nat (min_acked (paths_ p)))) a)
      by (now apply skipn_consecutive).
    rewrite skipn_skipn. f_equal. lia.
Qed.

Lemma add_all_fresh (hs : list Handle) :
  seq_ (add_all hs) = 0 /\ buf_ (add_all hs) = []
  /\ Forall (fun x => acked x = 0) (paths_ (add_all hs)).
Proof.
  unfold add_all.
  assert (G : forall p, seq_ p = 0 -> buf_ p = [] -> Forall (fun x => acked x = 0) (paths_ p) ->
    let q := fold_left (fun p h => fst (fst (add p h))) hs p in
    seq_ q = 0 /\ buf_ q = [] /\ Forall (fun x => acked x = 0) (paths_ q)).
  { induction hs as [|h hs IH]; intros p H1 H2 H3; [now simpl|].
    cbn [fold_left]. apply IH; unfold add; destruct (find_path h (paths_ p)); simpl; auto.
    apply Forall_app. split; [exact H3|]. constructor; [exact H1|constructor]. }
  apply G; simpl; auto.
Qed.

Lemma inv_add_all (hs : list Handle) : producer_inv [] (add_all hs).
Proof.
  destruct (add_all_fresh hs) as (H1 & H2 & H3).
  unfold producer_inv. rewrite H1, H2, skipn_nil. repeat split.
  eapply Forall_impl; [|exact H3]. cbn beta. intros; lia.
Qed.

Lemma produced_app (o1 o2 : list producer_output) :
  produced (o1 ++ o2) = produced o1 ++ produced o2.
Proof.
  induction o1 as [|x o1 IH]; [reflexivity|].
  destruct x; cbn [app produced]; now rewrite ?IH.
Qed.

Lemma inv_run (cs : list producer_call) :
  forall (P : list event) (p : producer),
  producer_inv P p -> calls_sat ack_honest p cs ->
  Z.of_nat (length P) + Z.of_nat (length cs) < 2 ^ 64 ->
  producer_inv (P ++ produced (snd (producer_run p cs))) (fst (producer_run p cs))
  /\ length (produced (snd (producer_run p cs))) = count_produce cs.
Proof.
  induction cs as [|c cs IH]; intros P p Hinv Hok Hlen.
  - cbn. now rewrite app_nil_r.
  - cbn [calls_sat] in Hok. destruct Hok as [Hc Hok].
    cbn [length] in Hlen. cbn [producer_run].
    destruct c as [x|h s].
    + cbn [producer_step] in *.
      pose proof (inv_produce P p x Hinv ltac:(lia)) as Hinv'.
      destruct (produce p x) as [p1 o1] eqn:E1.
      assert (Ho1 : produced o1 = [mk_event (wrap64 (seq_ p + 1)) x]).
      { unfold produce in E1. injection E1 as _ <-. reflexivity. }
      cbn [fst snd] in *.
      specialize (IH (P ++ produced o1) p1 Hinv' Hok).
      rewrite length_app, Ho1 in IH. cbn [length] in IH. specialize (IH ltac:(lia)).
      destruct (producer_run p1 cs) as [p2 o2]. cbn [fst snd] in *.
      rewrite produced_app, app_assoc, Ho1. split; [apply IH|].
      rewrite length_app. cbn. unfold count_produce in IH. lia.
    + cbn [producer_step] in *.
      specialize (IH P (handle_ack p h s) (inv_handle_ack P p h s Hinv Hc) Hok ltac:(lia)).
      destruct (producer_run (handle_ack p h s) cs) as [p2 o2]. cbn [fst snd app] in *.
      exact IH.
Qed.

(** C1 (as amended): on a fresh producer with any consumers added, after
    any sequence of fewer than 2^64 [produce] and [handle_ack] calls in which
    every [handle_ack] is made while the producer has a path and carries a
    value of at most the current [seq_] and at least the current [acked] of
    the path it names, the buffer holds exactly the produced events whose
    sequence number exceeds the minimum [acked] over all paths, and the
    produced sequence numbers are 1, 2, 3, ... in order, one per [produce]
    call. *)
Theorem producer_buffer_exact_honest_acks
  (hs : list Handle) (cs : list producer_call) :
  calls_sat ack_honest (add_all hs) cs ->
  Z.of_nat (length cs) < 2 ^ 64 ->
  buffer_exact (fst (producer_run (add_all hs) cs))
               (snd (producer_run (add_all hs) cs))
  /\ map ev_seq (produced (snd (producer_run (add_all hs) cs)))
     = zseq 1 (count_produce cs).
Proof.
  intros Hok Hlen.
  destruct (inv_run cs [] (add_all hs) (inv_add_all hs) Hok) as [(Hs & HP & HF & Hb) Hn];
    [simpl; lia|].
  cbn [app] in *. split.
  - unfold buffer_exact. rewrite Hb, (filter_consecutive _ 1) by exact HP.
    f_equal. lia.
  - now rewrite HP, Hn.
Qed.

(** The threshold computed by [ack_loop] for two acknowledged values: the
    results agree, or both are at least [B]. *)
Lemma ack_loop_threshold (h : Handle) (s1 s2 B : Z) (ps : list path) :
  forall acc1 acc2,
  acc1 = acc2 \/ (B <= acc1 /\ B <= acc2) ->
  let a1 := snd (ack_loop h s1 ps acc1) in
  let a2 := snd (ack_loop h s2 ps acc2) in
  a1 = a2 \/ (B <= a1 /\ B <= a2).
Proof.
  induction ps as [|x ps IH]; intros acc1 acc2 H; cbn zeta.
  - exact H.
  - cbn [ack_loop]. destruct (Handle_eqb (hdl x) h).
    + specialize (IH acc1 acc2 H). cbn zeta in IH.
      destruct (ack_loop h s1 ps acc1), (ack_loop h s2 ps acc2). exact IH.
    + assert (H' : Z.min (acked x) acc1 = Z.min (acked x) acc2
                   \/ (B <= Z.min (acked x) acc1 /\ B <= Z.min (acked x) acc2)) by lia.
      specialize (IH _ _ H'). cbn zeta in IH.
      destruct (ack_loop h s1 ps (Z.min (acked x) acc1)),
               (ack_loop h s2 ps (Z.min (acked x) acc2)). exact IH.
Qed.

Lemma erase_until_ext {A : Type} (f g : A -> bool) (l : list A) :
  (forall x, In x l -> f x = g x) -> erase_until f l = erase_until g l.
Proof.
  induction l as [|x l IH]; intros H; [reflexivity|].
  cbn [erase_until]. rewrite <- (H x (or_introl eq_refl)).
  destruct (f x); [reflexivity|]. apply IH. intros y Hy. apply H. now right.
Qed.

Lemma handle_ack_paths (p : producer) (h : Handle) (s : Z) :
  paths_ (handle_ack p h s) = map (set_acked h s) (paths_ p).
Proof.
  unfold handle_ack. rewrite <- (ack_loop_paths h s (paths_ p) s).
  now destruct (ack_loop h s (paths_ p) s).
Qed.

(** C4 (as amended): in a producer whose buffered events all have a sequence
    number of at most [seq_], and for a registered handle, [handle_ack] with
    a value above [seq_] leaves the same buffer as [handle_ack] with [seq_];
    the acknowledged value is stored as given (every path of the handle has
    [acked = seq], the other paths are untouched), so [idle] is false
    afterwards. *)
Theorem handle_ack_above_seq (p : producer) (h : Handle) (s : Z) :
  Forall (fun e => ev_seq e <= seq_ p) (buf_ p) ->
  registered h p ->
  seq_ p < s ->
  buf_ (handle_ack p h s) = buf_ (handle_ack p h (seq_ p))
  /\ paths_ (handle_ack p h s) = map (set_acked h s) (paths_ p)
  /\ (forall x, In x (paths_ (handle_ack p h s)) ->
        Handle_eqb (hdl x) h = true -> acked x = s)
  /\ idle (handle_ack p h s) = false.
Proof.
  intros Hbuf (x0 & Hx0 & Ex0) Hs.
  split; [|split; [apply handle_ack_paths|split]].
  - unfold handle_ack.
    pose proof (ack_loop_threshold h s (seq_ p) (seq_ p) (paths_ p) s (seq_ p)
                  ltac:(right; lia)) as H. cbn zeta in H.
    destruct (ack_loop h s (paths_ p) s) as [ps1 a1],
             (ack_loop h (seq_ p) (paths_ p) (seq_ p)) as [ps2 a2].
    cbn [snd buf_] in *. apply erase_until_ext. intros e He.
    rewrite Forall_forall in Hbuf. specialize (Hbuf e He). cbn beta in Hbuf.
    destruct H as [->|[H1 H2]]; [reflexivity|].
    destruct (Z.gtb_spec (ev_seq e) a1), (Z.gtb_spec (ev_seq e) a2); auto; lia.
  - rewrite handle_ack_paths. intros y Hy Ey.
    apply in_map_iff in Hy. destruct Hy as (x & <- & Hx).
    unfold set_acked in *. destruct (Handle_eqb (hdl x) h) eqn:E; [reflexivity|].
    congruence.
  - unfold idle. rewrite handle_ack_paths.
    assert (Hseq : seq_ (handle_ack p h s) = seq_ p).
    { unfold handle_ack. now destruct (ack_loop h s (paths_ p) s). }
    rewrite Hseq. apply not_true_is_false. intros Hall.
    rewrite forallb_forall in Hall.
    specialize (Hall (set_acked h s x0) (in_map _ _ _ Hx0)).
    unfold set_acked in Hall. rewrite Ex0 in Hall. cbn [acked] in Hall. lia.
Qed.


End Producer.

Arguments call_produce {Handle Payload} c.
Arguments call_handle_ack {Handle Payload} h seq.
Arguments add_all {Handle} Handle_eqb {Payload} hs.

(** *** Concrete runs: handles and payloads are natural numbers *)

(** C1, counterexample to the claim as stated: one consumer, one event
    produced and acknowledged, then an acknowledgement of 0 for the same
    consumer.  Both acknowledged values are at most [seq_], the buffer is
    empty, and the minimum acknowledged value is 0 again, below the produced
    event's sequence number 1. *)
Lemma ack_regression_breaks_buffer_exact :
  let p0 : producer nat nat := add_all Nat.eqb [1%nat] in
  let cs := [call_produce 7%nat; call_handle_ack 1%nat 1; call_handle_ack 1%nat 0] in
  calls_sat Nat.eqb (@ack_bounded nat nat) p0 cs
  /\ buf_ (fst (producer_run Nat.eqb p0 cs)) = []
  /\ min_acked (paths_ (fst (producer_run Nat.eqb p0 cs))) = 0
  /\ produced (snd (producer_run Nat.eqb p0 cs)) = [mk_event 1 7%nat]
  /\ ~ buffer_exact (fst (producer_run Nat.eqb p0 cs))
                    (snd (producer_run Nat.eqb p0 cs)).
Proof.
  cbv zeta. split.
  - vm_compute. repeat split; discriminate.
  - split; [reflexivity|]. split; [reflexivity|]. split; [reflexivity|].
    unfold buffer_exact. vm_compute. discriminate.
Qed.

(** Two consumers, two events; consumer 1 acknowledges both, consumer 2 the
    first: the buffer keeps the second event. *)
Lemma producer_buffer_exact_witness :
  let hs := [1%nat; 2%nat] in
  let cs := [call_produce 7%nat; call_produce 8%nat;
             call_handle_ack 1%nat 2; call_handle_ack 2%nat 1] in
  calls_sat Nat.eqb (ack_honest Nat.eqb (Payload:=nat)) (add_all Nat.eqb hs) cs
  /\ Z.of_nat (length cs) < 2 ^ 64
  /\ buf_ (fst (producer_run Nat.eqb (add_all Nat.eqb hs) cs)) = [mk_event 2 8%nat].
Proof.
  cbv zeta.
  assert (Hok : calls_sat Nat.eqb (ack_honest Nat.eqb (Payload:=nat))
                  (add_all Nat.eqb [1%nat; 2%nat])
                  [call_produce 7%nat; call_produce 8%nat;
                   call_handle_ack 1%nat 2; call_handle_ack 2%nat 1]).
  { cbn. unfold ack_honest. cbn.
    repeat split; try exact I; try discriminate.
    - intros x [<-|[<-|[]]] E; cbn in *; [discriminate | discriminate].
    - intros x [<-|[<-|[]]] E; cbn in *; [discriminate | discriminate]. }
  assert (Hlen : Z.of_nat (length [call_produce (Handle:=nat) 7%nat; call_produce 8%nat;
                   call_handle_ack 1%nat 2; call_handle_ack 2%nat 1]) < 2 ^ 64)
    by (vm_compute; reflexivity).
  split; [exact Hok|]. split; [exact Hlen|].
  destruct (producer_buffer_exact_honest_acks nat Nat.eqb nat _ _ Hok Hlen) as [Hb _].
  unfold buffer_exact in Hb. rewrite Hb. reflexivity.
Defined.

(** C4, counterexample to the claim as stated: one consumer, one produced
    event ([seq_ = 1]).  [handle_ack] with 5 stores 5 and the producer is not
    idle; [handle_ack] with [seq_] stores 1 and the producer is idle. *)
Lemma ack_above_seq_is_not_clamped :
  let p : producer nat nat := fst (produce (add_all Nat.eqb [1%nat]) 7%nat) in
  seq_ p = 1
  /\ registered Nat.eqb 1%nat p
  /\ paths_ (handle_ack Nat.eqb p 1%nat 5) = [mk_path 1%nat 1 5]
  /\ paths_ (handle_ack Nat.eqb p 1%nat (seq_ p)) = [mk_path 1%nat 1 1]
  /\ idle (handle_ack Nat.eqb p 1%nat 5) = false
  /\ idle (handle_ack Nat.eqb p 1%nat (seq_ p)) = true.
Proof.
  cbv zeta. repeat split.
  exists (mk_path 1%nat 1 0). split; [now left | reflexivity].
Qed.

(** The same producer as an instance of the theorem. *)
Lemma handle_ack_above_seq_witness :
  let p : producer nat nat := fst (produce (add_all Nat.eqb [1%nat]) 7%nat) in
  Forall (fun e => ev_seq e <= seq_ p) (buf_ p)
  /\ registered Nat.eqb 1%nat p
  /\ seq_ p < 5
  /\ buf_ (handle_ack Nat.eqb p 1%nat 5) = buf_ (handle_ack Nat.eqb p 1%nat (seq_ p))
  /\ idle (handle_ack Nat.eqb p 1%nat 5) = false.
Proof.
  cbv zeta.
  assert (H1 : Forall (fun e => ev_seq e <= seq_ (fst (produce (add_all Nat.eqb [1%nat]) 7%nat)))
                      (buf_ (fst (produce (add_all Nat.eqb [1%nat]) 7%nat)))).
  { constructor; [vm_compute; discriminate | constructor]. }
  assert (H2 : registered Nat.eqb 1%nat (fst (produce (add_all Nat.eqb [1%nat]) 7%nat))).
  { exists (mk_path 1%nat 1 0). split; [now left | reflexivity]. }
  assert (H3 : seq_ (fst (produce (add_all Nat.eqb [1%nat]) 7%nat)) < 5)
    by (vm_compute; reflexivity).
  destruct (handle_ack_above_seq nat Nat.eqb nat _ 1%nat 5 H1 H2 H3) as (C1 & _ & _ & C4).
  repeat split; assumption.
Defined.


End Producer.

(** *** The consumer half *)

Module Consumer.

(** [max_size()] of a vector of 64-bit numbers where [ptrdiff_t] has 64
    bits; used in the concrete runs. *)
Definition vector_max_size : Z := 2 ^ 60 - 1.

Set Implicit Arguments.

Section Consumer.

Variable Payload : Type.

(** [std::vector<sequence_number_type>::max_size()], the largest capacity
    [reserve] accepts. *)
Variable max_size : Z.

Local Abbreviation event := (event Payload).

(** What the consumer hands to its backend.  [backend_->consume] receives
    the payload only; the sequence number under which it is delivered (the
    value of [next_seq_] at the call) is recorded with it so that the order
    of deliveries can be stated.  [throw_length_error] stands for the
    [std::length_error] with which [seqs.reserve] leaves [tick]. *)
Inductive consumer_output : Type :=
| consume (seq : Z) (c : Payload)
| send_cumulative_ack (seq : Z)
| send_nack (seqs : list Z)
| throw_length_error.

(** [class consumer].  [tick_], [next_seq_] and [last_tick_seq_] are 64-bit,
    [idle_ticks_], [ack_interval_] and [nack_timeout_] are 8-bit. *)
Record consumer : Type := mk_consumer {
  next_seq_ : Z;
  buf_ : list event;
  tick_ : Z;
  last_tick_seq_ : Z;
  idle_ticks_ : Z;
  ack_interval_ : Z;
  nack_timeout_ : Z
}.

Definition consumer_init : consumer := mk_consumer 0 [] 0 0 0 1 1.

(** The loop of [try_consume_buffer]: returns the new [next_seq_], the
    buffer left after [erase], and the deliveries. *)
Fixpoint try_consume_loop (next : Z) (b : list event)
  : Z * list event * list consumer_output :=
  match b with
  | [] => (next, [], [])
  | e :: b' =>
      if ev_seq e =? next
      then let '(n, r, o) := try_consume_loop (wrap64 (next + 1)) b' in
           (n, r, consume next (content e) :: o)
      else (next, b, [])
  end.

Definition try_consume_buffer (c : consumer) (next : Z)
  : consumer * list consumer_output :=
  let '(n, r, o) := try_consume_loop next (buf_ c) in
  (mk_consumer n r (tick_ c) (last_tick_seq_ c) (idle_ticks_ c)
               (ack_interval_ c) (nack_timeout_ c), o).

Definition handle_handshake (c : consumer) (off : Z)
  : consumer * list consumer_output :=
  if off >=? next_seq_ c
  then try_consume_buffer c (wrap64 (off + 1))
  else (c, []).

(** Ordered insertion of [handle_event]: [find_if] for the first element
    with [x.seq >= seq], then [emplace_back], nothing, or [emplace]. *)
Fixpoint insert_event (seq : Z) (payload : Payload) (b : list event)
  : list event :=
  match b with
  | [] => [mk_event seq payload]
  | x :: b' =>
      if ev_seq x >=? seq
      then (if negb (ev_seq x =? seq) then mk_event seq payload :: b else b)
      else x :: insert_event seq payload b'
  end.

Definition handle_event (c : consumer) (seq : Z) (payload : Payload)
  : consumer * list consumer_output :=
  if next_seq_ c =? seq then
    let (c', o) := try_consume_buffer c (wrap64 (next_seq_ c + 1)) in
    (c', consume (next_seq_ c) payload :: o)
  else if seq >? next_seq_ c then
    (mk_consumer (next_seq_ c) (insert_event seq payload (buf_ c)) (tick_ c)
                 (last_tick_seq_ c) (idle_ticks_ c) (ack_interval_ c)
                 (nack_timeout_ c), [])
  else (c, []).

(** [send_ack]. *)
Definition send_ack (c : consumer) : consumer_output :=
  send_cumulative_ack (if next_seq_ c >? 0 then next_seq_ c - 1 else 0).

(** The [generate] closure of [tick]: its captured counter [i] and the
    vector [seqs] are the state.  The inner [for (; i < found; ++i)] pushes
    [i, i+1, ..., found-1]; then [++i]. *)
Definition generate (st : Z * list Z) (found : Z) : Z * list Z :=
  let (i, seqs) := st in
  (wrap64 (Z.max i found + 1), seqs ++ zseq i (Z.to_nat (found - i))).

Definition nack_seqs (first : Z) (b : list event) : list Z :=
  snd (fold_left generate (map ev_seq b) (first, [])).

(** [tick].  [seqs.reserve(last - first)] requests capacity for the 64-bit
    difference and throws when that exceeds [max_size]; the fields are
    already updated then.  [tick_ % ack_interval_] assumes a non-zero
    interval, as the field's comment requires. *)
Definition tick (c : consumer) : consumer * list consumer_output :=
  let progressed := next_seq_ c >? last_tick_seq_ c in
  let t := wrap64 (tick_ c + 1) in
  let acks := if t mod ack_interval_ c =? 0 then [send_ack c] else [] in
  if progressed then
    (mk_consumer (next_seq_ c) (buf_ c) t (next_seq_ c)
                 (if idle_ticks_ c >? 0 then 0 else idle_ticks_ c)
                 (ack_interval_ c) (nack_timeout_ c), acks)
  else
    let it := wrap8 (idle_ticks_ c + 1) in
    match buf_ c with
    | _ :: _ =>
        if it >=? nack_timeout_ c
        then
          let first := next_seq_ c in
          let last_ := last (map ev_seq (buf_ c)) 0 in
          (mk_consumer (next_seq_ c) (buf_ c) t (next_seq_ c) 0
                       (ack_interval_ c) (nack_timeout_ c),
           if wrap64 (last_ - first) >? max_size then [throw_length_error]
           else [send_nack (nack_seqs first (buf_ c))])
        else (mk_consumer (next_seq_ c) (buf_ c) t (next_seq_ c) it
                          (ack_interval_ c) (nack_timeout_ c), acks)
    | [] => (mk_consumer (next_seq_ c) (buf_ c) t (next_seq_ c) it
                         (ack_interval_ c) (nack_timeout_ c), acks)
    end.

(** Calls made on a consumer, and their execution in order. *)
Inductive consumer_call : Type :=
| call_handshake (off : Z)
| call_event (seq : Z) (payload : Payload)
| call_tick.

Definition consumer_step (c : consumer) (k : consumer_call)
  : consumer * list consumer_output :=
  match k with
  | call_handshake off => handle_handshake c off
  | call_event seq payload => handle_event c seq payload
  | call_tick => tick c
  end.

Fixpoint consumer_run (c : consumer) (ks : list consumer_call)
  : consumer * list consumer_output :=
  match ks with
  | [] => (c, [])
  | k :: ks' =>
      let (c1, o1) := consumer_step c k in
      let (c2, o2) := consumer_run c1 ks' in
      (c2, o1 ++ o2)
  end.

Definition is_handshake (k : consumer_call) : bool :=
  match k with call_handshake _ => true | _ => false end.

(** Sequence numbers of the deliveries, and the acknowledged values, in
    order. *)
Fixpoint delivered (o : list consumer_output) : list Z :=
  match o with
  | [] => []
  | consume s _ :: o' => s :: delivered o'
  | _ :: o' => delivered o'
  end.

Fixpoint acks_sent (o : list consumer_output) : list Z :=
  match o with
  | [] => []
  | send_cumulative_ack s :: o' => s :: acks_sent o'
  | _ :: o' => acks_sent o'
  end.

(** [wseq start len]: [len] consecutive 64-bit sequence numbers from
    [start], each the increment ([++]) of the one before; [wadd start len]
    is the number after them. *)
Fixpoint wseq (start : Z) (len : nat) : list Z :=
  match len with
  | O => []
  | S len' => start :: wseq (wrap64 (start + 1)) len'
  end.

Fixpoint wadd (start : Z) (len : nat) : Z :=
  match len with
  | O => start
  | S len' => wadd (wrap64 (start + 1)) len'
  end.

(** The reorder buffer is sorted strictly ascending by sequence number. *)
Definition ascending (b : list event) : Prop :=
  StronglySorted Z.lt (map ev_seq b).


(** The sequence numbers in [first, last) that no buffered event has. *)
Definition missing_seqs (first last : Z) (b : list event) : list Z :=
  filter (fun s => negb (existsb (Z.eqb s) (map ev_seq b)))
         (zseq first (Z.to_nat (last - first))).

Definition no_handshake (ks : list consumer_call) : bool :=
  forallb (fun k => negb (is_handshake k)) ks.

Unset Implicit Arguments.

(** *** Facts about the consumer *)

Lemma wrap64_le (z : Z) : 0 <= z -> 0 <= wrap64 z <= z.
Proof.
  intros H. unfold wrap64. split.
  - apply Z.mod_pos_bound. lia.
  - apply Z.mod_le; lia.
Qed.

Lemma delivered_app (o1 o2 : list consumer_output) :
  delivered (o1 ++ o2) = delivered o1 ++ delivered o2.
Proof.
  induction o1 as [|x o1 IH]; [reflexivity|].
  destruct x; cbn [app delivered]; now rewrite ?IH.
Qed.

Lemma acks_sent_app (o1 o2 : list consumer_output) :
  acks_sent (o1 ++ o2) = acks_sent o1 ++ acks_sent o2.
Proof.
  induction o1 as [|x o1 IH]; [reflexivity|].
  destruct x; cbn [app acks_sent]; now rewrite ?IH.
Qed.



(** Without wrap-around [wseq] is the plain run of consecutive numbers. *)
Lemma wseq_zseq (s : Z) (n : nat) :
  0 <= s -> s + Z.of_nat n <= 2 ^ 64 -> wseq s n = zseq s n.
Proof.
  revert s; induction n as [|n IH]; intros s H0 H; [reflexivity|].
  cbn [wseq zseq]. f_equal. destruct n as [|n]; [reflexivity|].
  assert (Hw : wrap64 (s + 1) = s + 1) by (unfold wrap64; apply Z.mod_small; lia).
  rewrite Hw. apply IH; lia.
Qed.

(** The drain loop delivers consecutive numbers from [next] on and leaves a
    suffix of the buffer. *)
Lemma try_consume_loop_spec (b : list event) :
  forall next,
  let '(n, r, o) := try_consume_loop next b in
  delivered o = wseq next (length (delivered o))
  /\ n = wadd next (length (delivered o))
  /\ acks_sent o = []
  /\ exists pre, b = pre ++ r.
Proof.
  induction b as [|e b IH]; intros next.
  - cbn. repeat split. now exists [].
  - cbn [try_consume_loop]. destruct (ev_seq e =? next).
    + specialize (IH (wrap64 (next + 1))).
      destruct (try_consume_loop (wrap64 (next + 1)) b) as [[n r] o].
      destruct IH as (I1 & I2 & I3 & pre & I4).
      cbn [delivered length wseq wadd acks_sent]. repeat split.
      * now rewrite <- I1.
      * exact I2.
      * exact I3.
      * exists (e :: pre). now rewrite I4.
    + cbn. repeat split. now exists [].
Qed.

Lemma ascending_suffix (pre r : list event) :
  ascending (pre ++ r) -> ascending r.
Proof.
  unfold ascending. induction pre as [|x pre IH]; [auto|].
  cbn [app map]. intros H. inversion H; auto.
Qed.

Lemma insert_event_seqs (seq : Z) (payload : Payload) (b : list event) (y : Z) :
  In y (map ev_seq (insert_event seq payload b)) ->
  y = seq \/ In y (map ev_seq b).
Proof.
  induction b as [|x b IH]; cbn [insert_event].
  - cbn. intros [<-|[]]. now left.
  - destruct (ev_seq x >=? seq).
    + destruct (negb (ev_seq x =? seq)); [|now right].
      cbn [map In ev_seq]. intros [<-|H]; [now left | now right].
    + cbn [map In]. intros [<-|H]; [right; now left|].
      destruct (IH H) as [->|H']; [now left | right; now right].
Qed.

Lemma insert_event_ascending (seq : Z) (payload : Payload) (b : list event) :
  ascending b -> ascending (insert_event seq payload b).
Proof.
  unfold ascending. induction b as [|x b IH]; intros H; cbn [insert_event].
  - cbn. constructor; constructor.
  - cbn [map] in H. inversion H as [|? ? Hs Hf]; subst.
    destruct (Z.geb_spec (ev_seq x) seq) as [Hge|Hlt].
    + destruct (Z.eqb_spec (ev_seq x) seq) as [He|Hne]; cbn [negb]; [exact H|].
      cbn [map ev_seq]. constructor; [exact H|].
      constructor; [lia|]. eapply Forall_impl; [|exact Hf]. cbn beta. intros; lia.
    + cbn [map]. constructor; [now apply IH|].
      rewrite Forall_forall. intros y Hy. apply insert_event_seqs in Hy.
      destruct Hy as [->|Hy]; [lia|]. rewrite Forall_forall in Hf. now apply Hf.
Qed.

(** [tick] touches neither the buffer nor [next_seq_] and delivers nothing. *)
Lemma tick_frame (c : consumer) :
  buf_ (fst (tick c)) = buf_ c
  /\ next_seq_ (fst (tick c)) = next_seq_ c
  /\ delivered (snd (tick c)) = [].
Proof.
  unfold tick, send_ack.
  destruct (next_seq_ c >? last_tick_seq_ c), (buf_ c) eqn:E,
           (wrap8 (idle_ticks_ c + 1) >=? nack_timeout_ c),
           (wrap64 (tick_ c + 1) mod ack_interval_ c =? 0);
    cbn [fst snd buf_ next_seq_ delivered]; auto;
    match goal with
    | |- context [if ?b then _ else _] => destruct b
    end; auto.
Qed.



Lemma try_consume_loop_above (b : list event) :
  forall next,
  0 <= next -> ascending b -> Forall (fun e => next <= ev_seq e) b ->
  let '(n, r, o) := try_consume_loop next b in
  0 <= n /\ Forall (fun e => n < ev_seq e) r.
Proof.
  induction b as [|e b IH]; intros next H0 Hs Hf.
  - cbn. split; [exact H0 | constructor].
  - unfold ascending in Hs. cbn [map] in Hs.
    inversion Hs as [|? ? Hs' Hlt]; subst. rewrite Forall_map in Hlt.
    inversion Hf as [|? ? He Hf']; subst.
    cbn [try_consume_loop]. destruct (Z.eqb_spec (ev_seq e) next) as [E|E].
    + pose proof (wrap64_le (next + 1) ltac:(lia)) as Hw.
      assert (Hf2 : Forall (fun x => wrap64 (next + 1) <= ev_seq x) b).
      { eapply Forall_impl; [|exact Hlt]. cbn beta. intros; lia. }
      specialize (IH (wrap64 (next + 1)) ltac:(lia) Hs' Hf2).
      destruct (try_consume_loop (wrap64 (next + 1)) b) as [[n r] o]. exact IH.
    + split; [exact H0|]. constructor; [lia|].
      eapply Forall_impl; [|exact Hlt]. cbn beta. intros; lia.
Qed.



Lemma try_consume_buffer_delivered (c : consumer) (next : Z) :
  let r := try_consume_buffer c next in
  delivered (snd r) = wseq next (length (delivered (snd r)))
  /\ next_seq_ (fst r) = wadd next (length (delivered (snd r)))
  /\ acks_sent (snd r) = [].
Proof.
  unfold try_consume_buffer. pose proof (try_consume_loop_spec (buf_ c) next) as L.
  destruct (try_consume_loop next (buf_ c)) as [[n r] o].
  destruct L as (L1 & L2 & L3 & _). cbn [fst snd next_seq_]. auto.
Qed.

Lemma step_delivered (c : consumer) (k : consumer_call) :
  is_handshake k = false ->
  let r := consumer_step c k in
  delivered (snd r) = wseq (next_seq_ c) (length (delivered (snd r)))
  /\ next_seq_ (fst r) = wadd (next_seq_ c) (length (delivered (snd r))).
Proof.
  intros Hk. destruct k as [off|seq payload|]; [discriminate| |]; cbn [consumer_step].
  - unfold handle_event. destruct (Z.eqb_spec (next_seq_ c) seq) as [E|E].
    + pose proof (try_consume_buffer_delivered c (wrap64 (next_seq_ c + 1))) as L.
      destruct (try_consume_buffer c (wrap64 (next_seq_ c + 1))) as [c' o].
      cbn [fst snd] in *. destruct L as (L1 & L2 & _).
      cbn [delivered length wseq wadd]. split; [now rewrite <- L1 | exact L2].
    + destruct (seq >? next_seq_ c); cbn; auto.
  - destruct (tick_frame c) as (_ & En & Ed). cbn zeta. rewrite Ed, En. cbn. auto.
Qed.





(** Without deliveries [next_seq_] stays put, and every acknowledgement
    carries [next_seq_ - 1]. *)
Lemma run_acks_without_delivery (ks : list consumer_call) :
  forall c, no_handshake ks = true -> 0 < next_seq_ c ->
  delivered (snd (consumer_run c ks)) = [] ->
  Forall (fun s => s = next_seq_ c - 1) (acks_sent (snd (consumer_run c ks))).
Proof.
  induction ks as [|k ks IH]; intros c Hn Hpos Hd; [constructor|].
  cbn [no_handshake forallb] in Hn. apply andb_prop in Hn. destruct Hn as [Hk Hn].
  apply negb_true_iff in Hk.
  cbn [consumer_run] in *. pose proof (step_delivered c k Hk) as H1. cbn zeta in H1.
  assert (Hack : Forall (fun s => s = next_seq_ c - 1)
                        (acks_sent (snd (consumer_step c k)))).
  { destruct k as [off|seq payload|]; [discriminate| |]; cbn [consumer_step].
    - unfold handle_event. destruct (next_seq_ c =? seq).
      + pose proof (try_consume_buffer_delivered c (wrap64 (next_seq_ c + 1))) as L.
        destruct (try_consume_buffer c (wrap64 (next_seq_ c + 1))) as [c' o].
        cbn [snd acks_sent] in *. destruct L as (_ & _ & ->). constructor.
      + destruct (seq >? next_seq_ c); constructor.
    - unfold tick, send_ack. destruct (Z.gtb_spec (next_seq_ c) 0); [|lia].
      destruct (next_seq_ c >? last_tick_seq_ c), (buf_ c),
               (wrap8 (idle_ticks_ c + 1) >=? nack_timeout_ c),
               (wrap64 (tick_ c + 1) mod ack_interval_ c =? 0);
        cbn [snd acks_sent]; repeat constructor;
        match goal with
        | |- context [if ?b then _ else _] => destruct b
        end; constructor. }
  destruct (consumer_step c k) as [c1 o1]. cbn [fst snd] in *.
  specialize (IH c1 Hn).
  destruct (consumer_run c1 ks) as [c2 o2]. cbn [fst snd] in *.
  rewrite delivered_app in Hd. apply app_eq_nil in Hd. destruct Hd as [Hd1 Hd2].
  destruct H1 as [_ H1]. rewrite Hd1 in H1. cbn [length wadd] in H1.
  rewrite acks_sent_app. apply Forall_app. split; [exact Hack|].
  rewrite H1 in IH. apply IH; [lia | exact Hd2].
Qed.

(** C7 (as amended): after a consumer (with a non-zero ack interval) has
    accepted [handshake{offset}], every [cumulative_ack] it sends before
    delivering any event -- in particular the first -- carries the sequence
    number [offset]. *)
Theorem ack_after_handshake_carries_offset
  (c : consumer) (off : Z) (ks : list consumer_call) :
  ack_interval_ c <> 0 ->
  next_seq_ c <= off -> 0 <= off -> off + 1 < 2 ^ 64 ->
  no_handshake ks = true ->
  delivered (snd (consumer_run c (call_handshake off :: ks))) = [] ->
  Forall (fun s => s = off)
         (acks_sent (snd (consumer_run c (call_handshake off :: ks)))).
Proof.
  intros _ Hle H0 Hlt Hn Hd. cbn [consumer_run consumer_step] in *.
  unfold handle_handshake in *. destruct (Z.geb_spec off (next_seq_ c)); [|lia].
  assert (Hw : wrap64 (off + 1) = off + 1) by (unfold wrap64; apply Z.mod_small; lia).
  rewrite Hw in *.
  pose proof (try_consume_buffer_delivered c (off + 1)) as L. cbn zeta in L.
  destruct (try_consume_buffer c (off + 1)) as [c1 o1]. cbn [fst snd] in *.
  pose proof (run_acks_without_delivery ks c1 Hn) as R.
  destruct (consumer_run c1 ks) as [c2 o2]. cbn [fst snd] in *.
  rewrite delivered_app in Hd. apply app_eq_nil in Hd. destruct Hd as [Hd1 Hd2].
  destruct L as (_ & L2 & L3). rewrite Hd1 in L2. cbn [length wadd] in L2.
  rewrite acks_sent_app, L3. cbn [app].
  rewrite L2 in R. specialize (R ltac:(lia) Hd2).
  eapply Forall_impl; [|exact R]. cbn beta. intros; lia.
Qed.

End Consumer.

Arguments call_handshake {Payload} off.
Arguments call_tick {Payload}.
Arguments consumer_init {Payload}.
Arguments send_cumulative_ack {Payload} seq.
Arguments send_nack {Payload} seqs.

(** *** Concrete runs: payloads are natural numbers *)



(** C7, counterexample to the claim as stated: a fresh consumer that
    accepts [handshake{3}] and then ticks sends [cumulative_ack{3}] as its
    first acknowledgement, with nothing delivered. *)
Lemma first_ack_after_handshake_is_not_zero :
  let r := consumer_run (Payload:=nat) vector_max_size consumer_init
             [call_handshake 3; call_tick] in
  delivered (snd r) = []
  /\ snd r = [send_cumulative_ack 3]
  /\ hd_error (acks_sent (snd r)) <> Some 0.
Proof.
  cbv zeta. repeat split. vm_compute. discriminate.
Qed.

(** After [handshake{3}]: a tick, a buffered event and another tick; both
    acknowledgements carry 3. *)
Lemma ack_after_handshake_witness :
  let c : consumer nat := consumer_init in
  let ks := [call_tick; call_event 9 1%nat; call_tick] in
  ack_interval_ c <> 0
  /\ next_seq_ c <= 3
  /\ no_handshake ks = true
  /\ delivered (snd (consumer_run vector_max_size c (call_handshake 3 :: ks))) = []
  /\ Forall (fun s => s = 3)
            (acks_sent (snd (consumer_run vector_max_size c (call_handshake 3 :: ks)))).
Proof.
  cbv zeta.
  assert (H1 : ack_interval_ (consumer_init (Payload:=nat)) <> 0)
    by (vm_compute; discriminate).
  assert (H2 : next_seq_ (consumer_init (Payload:=nat)) <= 3)
    by (vm_compute; discriminate).
  assert (H3 : 0 <= 3) by (vm_compute; discriminate).
  assert (H4 : 3 + 1 < 2 ^ 64) by (vm_compute; reflexivity).
  repeat split; [exact H1 | exact H2 |].
  exact (ack_after_handshake_carries_offset nat vector_max_size consumer_init 3
           [call_tick; call_event 9 1%nat; call_tick]
           H1 H2 H3 H4 eq_refl eq_refl).
Defined.

(** C6, the code at a reachable state.  A producer at [seq_ = 0] adds the
    consumer ([handshake{1}]) and produces events 1, 2 and 3; event 2 is
    lost and event 1 overtakes the handshake.  The fresh consumer thus
    receives event 1, event 3 and [handshake{1}], and ticks once.  It then
    has [next_seq_ = 2], the buffer [1; 3], and has seen no progress since
    that tick.  The next tick meets all three conditions and sends a nack
    with no sequence number at all; the only number in [2, 3), which is 2,
    is absent from the buffer. *)
Theorem tick_nack_after_stale_entry :
  let c := fst (consumer_run vector_max_size consumer_init
                  [call_event 1 11%nat; call_event 3 13%nat;
                   call_handshake 1; call_tick]) in
  next_seq_ c = 2
  /\ map ev_seq (buf_ c) = [1; 3]
  /\ (next_seq_ c >? last_tick_seq_ c) = false
  /\ (wrap8 (idle_ticks_ c + 1) >=? nack_timeout_ c) = true
  /\ snd (tick vector_max_size c) = [send_nack []]
  /\ idle_ticks_ (fst (tick vector_max_size c)) = 0
  /\ missing_seqs (next_seq_ c) 3 (buf_ c) = [2].
Proof.
  cbv zeta. repeat split.
Qed.

End Consumer.

End Channel.

(** ** The master state machine *)

Module Master.

Definition timestamp := Z.
Definition timespan := Z.
Definition request_id := Z.

(** Handles of actors and entities; [None] where the source compares a
    handle with [nullptr]. *)
Definition entity_id := Z.

(** Modelled from the spec: the value variant [data] (section 3; its header
    is not among the sources).  Only the alternatives that the master's
    handlers build or inspect are listed. *)
#[warnings="-register-all"]
Inductive data : Type :=
| d_none
| d_boolean (b : bool)
| d_count (n : Z)
| d_integer (z : Z)
| d_string (s : String.string)
| d_vector (xs : list data)
| d_set (xs : list data).

(** [data::type], the tag passed as [init_type] to [add]. *)
Inductive data_type : Type :=
| t_none | t_boolean | t_count | t_integer | t_string | t_vector | t_set.

Definition snapshot := list (data * data).

(** [expected<T>]. *)
Inductive expected (T : Type) : Type :=
| ok (x : T)
| err (e : ec).

Arguments ok {T} x.
Arguments err {T} e.

(** The commands of [internal_command::variant_type], with their fields in
    declaration order (section 3 of the specification). *)
Inductive command : Type :=
| none_command
| put_command (key value : data) (expiry : option timespan) (publisher : entity_id)
| put_unique_command (key value : data) (expiry : option timespan)
    (publisher who : entity_id) (req_id : request_id)
| erase_command (key : data) (publisher : entity_id)
| expire_command (key : data) (publisher : entity_id)
| add_command (key value : data) (init_type : data_type)
    (expiry : option timespan) (publisher : entity_id)
| subtract_command (key value : data) (expiry : option timespan)
    (publisher : entity_id)
| snapshot_command (remote_core remote_clone : option entity_id)
| snapshot_sync_command (remote_clone : option entity_id)
| set_command (state : snapshot)
| clear_command (publisher : entity_id).

(** What a handler does besides changing the master's state, in order:
    messages sent with [self->send], reminders scheduled on the clock with
    [send_later], the store events of [emit_*_event], the commands given to
    [broadcast_cmd_to_clones], [self->monitor] and [detail::die].  Log lines
    are not modelled. *)
Inductive effect : Type :=
| send_reply (who : entity_id) (result : data) (req_id : request_id)
| send_set (clone : entity_id) (state : snapshot)
| remind (expiry : timespan) (key : data)
| emit_insert_event (key value : data) (expiry : option timespan)
    (publisher : entity_id)
| emit_update_event (key old_value new_value : data)
    (expiry : option timespan) (publisher : entity_id)
| emit_erase_event (key : data) (publisher : entity_id)
| emit_expire_event (key : data) (publisher : entity_id)
| broadcast_cmd_to_clones (cmd : command)
| monitor (hdl : entity_id)
| die (msg : String.string).

(** Modelled from the spec: the storage backend interface consumed by the
    master (section 4.2; [detail/abstract_backend.hh] is not among the
    sources).  [B] is the backend's state; an operation that may write
    returns its result and the backend after the call, a read is a function
    of the backend. *)
Record abstract_backend (B : Type) : Type := mk_backend {
  backend_put : B -> data -> data -> option timestamp -> expected unit * B;
  backend_add : B -> data -> data -> data_type -> option timestamp
                -> expected unit * B;
  backend_subtract : B -> data -> data -> option timestamp -> expected unit * B;
  backend_erase : B -> data -> expected unit * B;
  backend_clear : B -> expected unit * B;
  backend_expire : B -> data -> timestamp -> expected bool * B;
  backend_get : B -> data -> expected data;
  backend_exists : B -> data -> expected bool;
  backend_keys : B -> expected data;
  backend_snapshot : B -> expected snapshot;
  backend_expiries : B -> expected (list (data * timestamp))
}.

Arguments backend_put {B} _ _ _ _ _.
Arguments backend_add {B} _ _ _ _ _ _.
Arguments backend_subtract {B} _ _ _ _ _.
Arguments backend_erase {B} _ _ _.
Arguments backend_clear {B} _ _.
Arguments backend_expire {B} _ _ _ _.
Arguments backend_get {B} _ _ _.
Arguments backend_exists {B} _ _ _.
Arguments backend_keys {B} _ _.
Arguments backend_snapshot {B} _ _.
Arguments backend_expiries {B} _ _.

(** *** A backend for concrete runs *)

Fixpoint data_eqb (a b : data) : bool :=
  match a, b with
  | d_none, d_none => true
  | d_boolean x, d_boolean y => Bool.eqb x y
  | d_count x, d_count y => x =? y
  | d_integer x, d_integer y => x =? y
  | d_string x, d_string y => String.eqb x y
  | d_vector xs, d_vector ys =>
      (fix go (xs ys : list data) : bool :=
         match xs, ys with
         | [], [] => true
         | x :: xs', y :: ys' => data_eqb x y && go xs' ys'
         | _, _ => false
         end) xs ys
  | d_set xs, d_set ys =>
      (fix go (xs ys : list data) : bool :=
         match xs, ys with
         | [], [] => true
         | x :: xs', y :: ys' => data_eqb x y && go xs' ys'
         | _, _ => false
         end) xs ys
  | _, _ => false
  end.

(** Modelled from the spec: an in-memory backend with the operations of
    section 4.2 on counts and integers, kept as an association list of
    key, value and expiry, and with two injected faults: [writes_fail]
    makes every write return [backend_failure]; [breaks_on_write] makes the
    store unreadable from the first successful write on. *)
Record store : Type := mk_store {
  entries : list (data * (data * option timestamp));
  writes_fail : bool;
  breaks_on_write : bool;
  unreadable : bool
}.

Definition lookup (k : data) (b : store) : option (data * option timestamp) :=
  match find (fun kv => data_eqb (fst kv) k) (entries b) with
  | Some kv => Some (snd kv)
  | None => None
  end.

Definition without (k : data) (b : store)
  : list (data * (data * option timestamp)) :=
  filter (fun kv => negb (data_eqb (fst kv) k)) (entries b).

Definition write (b : store) (es : list (data * (data * option timestamp)))
  : expected unit * store :=
  if writes_fail b then (err backend_failure, b)
  else (ok tt, mk_store es false (breaks_on_write b)
                        (unreadable b || breaks_on_write b)).

Definition store_get (b : store) (k : data) : expected data :=
  if unreadable b then err backend_failure
  else match lookup k b with
       | Some (v, _) => ok v
       | None => err no_such_key
       end.

Definition store_exists (b : store) (k : data) : expected bool :=
  if unreadable b then err backend_failure
  else ok (match lookup k b with Some _ => true | None => false end).

Definition store_put (b : store) (k v : data) (e : option timestamp)
  : expected unit * store :=
  write b (without k b ++ [(k, (v, e))]).

Definition store_add (b : store) (k v : data) (t : data_type)
  (e : option timestamp) : expected unit * store :=
  match lookup k b, v with
  | Some (d_count a, _), d_count c => store_put b k (d_count (wrap64 (a + c))) e
  | Some (d_integer a, _), d_integer c => store_put b k (d_integer (a + c)) e
  | None, d_count c =>
      match t with t_count => store_put b k v e | _ => (err type_clash, b) end
  | None, d_integer c =>
      match t with t_integer => store_put b k v e | _ => (err type_clash, b) end
  | _, _ => (err type_clash, b)
  end.

Definition store_subtract (b : store) (k v : data) (e : option timestamp)
  : expected unit * store :=
  match lookup k b, v with
  | Some (d_count a, _), d_count c => store_put b k (d_count (wrap64 (a - c))) e
  | Some (d_integer a, _), d_integer c => store_put b k (d_integer (a - c)) e
  | None, _ => (err no_such_key, b)
  | _, _ => (err type_clash, b)
  end.

Definition store_erase (b : store) (k : data) : expected unit * store :=
  write b (without k b).

Definition store_clear (b : store) : expected unit * store := write b [].

Definition store_expire (b : store) (k : data) (now : timestamp)
  : expected bool * store :=
  match lookup k b with
  | Some (_, Some t) =>
      if t <=? now
      then match write b (without k b) with
           | (ok _, b') => (ok true, b')
           | (err e, b') => (err e, b')
           end
      else (ok false, b)
  | _ => (ok false, b)
  end.

Definition store_keys (b : store) : expected data :=
  if unreadable b then err backend_failure
  else ok (d_vector (map fst (entries b))).

Definition store_snapshot (b : store) : expected snapshot :=
  if unreadable b then err backend_failure
  else ok (map (fun kv => (fst kv, fst (snd kv))) (entries b)).

Fixpoint store_expiries_of (es : list (data * (data * option timestamp)))
  : list (data * timestamp) :=
  match es with
  | [] => []
  | (k, (_, Some t)) :: es' => (k, t) :: store_expiries_of es'
  | _ :: es' => store_expiries_of es'
  end.

Definition store_expiries (b : store) : expected (list (data * timestamp)) :=
  if unreadable b then err backend_failure
  else ok (store_expiries_of (entries b)).

Definition store_ops : abstract_backend store :=
  mk_backend store store_put store_add store_subtract store_erase store_clear
             store_expire store_get store_exists store_keys store_snapshot
             store_expiries.

(** *** The master *)

Set Implicit Arguments.

Section Master.

Variable B : Type.
Variable ops : abstract_backend B.

(** [master_state]: the backend and the clone registry (remote core's
    address to clone handle). *)
Record master_state : Type := mk_master {
  backend : B;
  clones : list (entity_id * entity_id)
}.

Definition with_backend (st : master_state) (b : B) : master_state :=
  mk_master b (clones st).

(** [to_opt_timestamp]. *)
Definition to_opt_timestamp (ts : timestamp) (span : option timespan)
  : option timestamp :=
  match span with
  | Some s => Some (ts + s)
  | None => None
  end.

(** The reminder scheduled when the command carries an expiry. *)
Definition remind_if (expiry : option timespan) (key : data) : list effect :=
  match expiry with
  | Some e => [remind e key]
  | None => []
  end.

(** [master_state::exists]. *)
Definition exists_ (st : master_state) (key : data) : bool :=
  match backend_exists ops (backend st) key with
  | ok r => r
  | err _ => false
  end.

(** The handlers take the reading of [clock->now()] as [now]. *)

Definition on_put (now : timestamp) (st : master_state)
  (key value : data) (expiry : option timespan) (publisher : entity_id)
  : master_state * list effect :=
  let et := to_opt_timestamp now expiry in
  let old_value := backend_get ops (backend st) key in
  let (result, b') := backend_put ops (backend st) key value et in
  match result with
  | err _ => (with_backend st b', [])
  | ok _ =>
      (with_backend st b',
       remind_if expiry key
       ++ [match old_value with
           | ok old => emit_update_event key old value expiry publisher
           | err _ => emit_insert_event key value expiry publisher
           end;
           broadcast_cmd_to_clones (put_command key value expiry publisher)])
  end.

Definition on_put_unique (now : timestamp) (st : master_state)
  (key value : data) (expiry : option timespan) (publisher who : entity_id)
  (req_id : request_id) : master_state * list effect :=
  if exists_ st key then (st, [send_reply who (d_boolean false) req_id])
  else
    let et := to_opt_timestamp now expiry in
    let (res, b') := backend_put ops (backend st) key value et in
    match res with
    | err _ => (with_backend st b', [send_reply who (d_boolean false) req_id])
    | ok _ =>
        (with_backend st b',
         [send_reply who (d_boolean true) req_id]
         ++ remind_if expiry key
         ++ [emit_insert_event key value expiry publisher;
             broadcast_cmd_to_clones (put_command key value expiry publisher)])
    end.

Definition on_erase (st : master_state) (key : data) (publisher : entity_id)
  : master_state * list effect :=
  let (res, b') := backend_erase ops (backend st) key in
  match res with
  | err _ => (with_backend st b', [])
  | ok _ =>
      (with_backend st b',
       [emit_erase_event key publisher;
        broadcast_cmd_to_clones (erase_command key publisher)])
  end.

Definition on_add (now : timestamp) (st : master_state)
  (key value : data) (init_type : data_type) (expiry : option timespan)
  (publisher : entity_id) : master_state * list effect :=
  let old_value := backend_get ops (backend st) key in
  let et := to_opt_timestamp now expiry in
  let (res, b') := backend_add ops (backend st) key value init_type et in
  match res with
  | err _ => (with_backend st b', [])
  | ok _ =>
      match backend_get ops b' key with
      | err _ => (with_backend st b', [])
      | ok val =>
          (with_backend st b',
           remind_if expiry key
           ++ [match old_value with
               | ok old => emit_update_event key old val None publisher
               | err _ => emit_insert_event key val None publisher
               end;
               broadcast_cmd_to_clones (put_command key val None publisher)])
      end
  end.

Definition on_subtract (now : timestamp) (st : master_state)
  (key value : data) (expiry : option timespan) (publisher : entity_id)
  : master_state * list effect :=
  let et := to_opt_timestamp now expiry in
  match backend_get ops (backend st) key with
  | err _ => (st, [])
  | ok old_value =>
      let (res, b') := backend_subtract ops (backend st) key value et in
      match res with
      | err _ => (with_backend st b', [])
      | ok _ =>
          match backend_get ops b' key with
          | err _ => (with_backend st b', [])
          | ok val =>
              (with_backend st b',
               remind_if expiry key
               ++ [emit_update_event key old_value val None publisher;
                   broadcast_cmd_to_clones (put_command key val None publisher)])
          end
      end
  end.

Definition on_snapshot (st : master_state)
  (remote_core remote_clone : option entity_id) : master_state * list effect :=
  match remote_core, remote_clone with
  | Some core, Some clone =>
      match backend_snapshot ops (backend st) with
      | err _ => (st, [die "failed to snapshot master"%string])
      | ok ss =>
          (mk_master (backend st)
             (if existsb (Z.eqb core) (map fst (clones st)) then clones st
              else clones st ++ [(core, clone)]),
           [monitor core;
            broadcast_cmd_to_clones (snapshot_sync_command remote_clone);
            send_set clone ss])
      end
  | _, _ => (st, [])
  end.

Definition on_clear (st : master_state) (publisher : entity_id)
  : master_state * list effect :=
  match backend_keys ops (backend st) with
  | err _ => (st, [])
  | ok keys_res =>
      let erased :=
        match keys_res with
        | d_vector keys => map (fun k => emit_erase_event k publisher) keys
        | d_set keys => map (fun k => emit_erase_event k publisher) keys
        | _ => []
        end in
      let (res, b') := backend_clear ops (backend st) in
      match res with
      | err _ => (with_backend st b', erased ++ [die "failed to clear master"%string])
      | ok _ =>
          (with_backend st b',
           erased ++ [broadcast_cmd_to_clones (clear_command publisher)])
      end
  end.

(** [master_state::command]: [std::visit] over the command variant. *)
Definition command_ (now : timestamp) (st : master_state) (cmd : command)
  : master_state * list effect :=
  match cmd with
  | none_command => (st, [])
  | put_command k v e p => on_put now st k v e p
  | put_unique_command k v e p who rid => on_put_unique now st k v e p who rid
  | erase_command k p => on_erase st k p
  | expire_command _ _ => (st, [])
  | add_command k v t e p => on_add now st k v t e p
  | subtract_command k v e p => on_subtract now st k v e p
  | snapshot_command core clone => on_snapshot st core clone
  | snapshot_sync_command _ => (st, [])
  | set_command _ => (st, [])
  | clear_command p => on_clear st p
  end.

(** [master_state::expire], the handler of the timer message. *)
Definition expire (now : timestamp) (self : entity_id) (st : master_state)
  (key : data) : master_state * list effect :=
  let (result, b') := backend_expire ops (backend st) key now in
  match result with
  | err _ => (with_backend st b', [])
  | ok false => (with_backend st b', [])
  | ok true =>
      (with_backend st b',
       [emit_expire_event key self;
        broadcast_cmd_to_clones (expire_command key self)])
  end.

Unset Implicit Arguments.

(** *** Facts about the master *)

(** C3 (as amended): on [put_unique], if the backend reports the key as
    existing the master replies [(false, req_id)] to the requester and
    changes and sends nothing else; otherwise it puts the key with the
    expiry relative to the clock and, when that put succeeds, replies
    [(true, req_id)], emits an insert event and broadcasts a plain [put]
    command (after scheduling the reminder when there is an expiry); when the
    put fails it replies [(false, req_id)] and emits and broadcasts
    nothing. *)
Theorem put_unique_outcome (now : timestamp) (st : master_state)
  (key value : data) (expiry : option timespan) (publisher who : entity_id)
  (req_id : request_id) :
  (backend_exists ops (backend st) key = ok true ->
     on_put_unique now st key value expiry publisher who req_id
     = (st, [send_reply who (d_boolean false) req_id]))
  /\ (exists_ st key = false ->
      forall b',
      backend_put ops (backend st) key value (to_opt_timestamp now expiry)
      = (ok tt, b') ->
      on_put_unique now st key value expiry publisher who req_id
      = (with_backend st b',
         send_reply who (d_boolean true) req_id
         :: remind_if expiry key
         ++ [emit_insert_event key value expiry publisher;
             broadcast_cmd_to_clones (put_command key value expiry publisher)]))
  /\ (exists_ st key = false ->
      forall e b',
      backend_put ops (backend st) key value (to_opt_timestamp now expiry)
      = (err e, b') ->
      on_put_unique now st key value expiry publisher who req_id
      = (with_backend st b', [send_reply who (d_boolean false) req_id])).
Proof.
  unfold on_put_unique. repeat split.
  - intros H. unfold exists_. now rewrite H.
  - intros H b' Hp. rewrite H, Hp. reflexivity.
  - intros H e b' Hp. rewrite H, Hp. reflexivity.
Qed.

(** C8 (as amended): on [subtract], if the backend has no value for the key
    the command is dropped: no backend change, no event, no broadcast.  If
    the key exists, the backend subtract succeeds and the re-read of the key
    succeeds, the master emits an update event with the old value and
    broadcasts a plain [put] command carrying the re-read value and no
    expiry (after scheduling the reminder when there is an expiry).  If the
    re-read fails, nothing is emitted or broadcast. *)
Theorem subtract_outcome (now : timestamp) (st : master_state)
  (key value : data) (expiry : option timespan) (publisher : entity_id) :
  (forall e, backend_get ops (backend st) key = err e ->
     on_subtract now st key value expiry publisher = (st, []))
  /\ (forall old b' new,
      backend_get ops (backend st) key = ok old ->
      backend_subtract ops (backend st) key value (to_opt_timestamp now expiry)
      = (ok tt, b') ->
      backend_get ops b' key = ok new ->
      on_subtract now st key value expiry publisher
      = (with_backend st b',
         remind_if expiry key
         ++ [emit_update_event key old new None publisher;
             broadcast_cmd_to_clones (put_command key new None publisher)]))
  /\ (forall old b' e,
      backend_get ops (backend st) key = ok old ->
      backend_subtract ops (backend st) key value (to_opt_timestamp now expiry)
      = (ok tt, b') ->
      backend_get ops b' key = err e ->
      on_subtract now st key value expiry publisher = (with_backend st b', [])).
Proof.
  unfold on_subtract. repeat split.
  - intros e H. now rewrite H.
  - intros old b' new H1 H2 H3. now rewrite H1, H2, H3.
  - intros old b' e H1 H2 H3. now rewrite H1, H2, H3.
Qed.

(** C10: an [expire_command], a [snapshot_sync_command] or a [set_command]
    received by the master leaves the master state (backend and clone
    registry) as it is and has no effect at all: no reminder, no store
    event, no broadcast. *)
Theorem clone_only_commands_ignored (now : timestamp) (st : master_state) :
  (forall key publisher,
     command_ now st (expire_command key publisher) = (st, []))
  /\ (forall remote_clone,
      command_ now st (snapshot_sync_command remote_clone) = (st, []))
  /\ (forall state, command_ now st (set_command state) = (st, [])).
Proof. repeat split. Qed.

End Master.


(** *** Concrete runs *)

(** C3, counterexample to the claim as stated: the key does not exist and
    the backend rejects the write.  The master replies [(false, 7)], emits
    no insert event and broadcasts nothing. *)
Lemma put_unique_reply_on_failed_put :
  let st := mk_master (mk_store [] true false false) [] in
  backend_exists store_ops (backend st) (d_string "k") = ok false
  /\ on_put_unique store_ops 0 st (d_string "k") (d_count 1) None 1 2 7
     = (st, [send_reply 2 (d_boolean false) 7]).
Proof. cbv zeta. split; reflexivity. Qed.

(** C8, counterexample to the claim as stated: the key exists with value 5,
    the backend subtract succeeds, and the re-read of the key fails.  The
    master emits no update event and broadcasts nothing. *)
Lemma subtract_silent_on_failed_reread :
  let b := mk_store [(d_string "k", (d_count 5, None))] false true false in
  let st := mk_master b [] in
  backend_get store_ops b (d_string "k") = ok (d_count 5)
  /\ fst (backend_subtract store_ops b (d_string "k") (d_count 2) None) = ok tt
  /\ snd (on_subtract store_ops 0 st (d_string "k") (d_count 2) None 1) = [].
Proof. cbv zeta. repeat split. Qed.

(** [put_unique] of a fresh key on a healthy store. *)
Lemma put_unique_outcome_witness :
  let st := mk_master (mk_store [] false false false) [] in
  let k := d_string "k" in
  let b' := snd (backend_put store_ops (backend st) k (d_count 5) (Some 130)) in
  exists_ store_ops st k = false
  /\ backend_put store_ops (backend st) k (d_count 5) (to_opt_timestamp 100 (Some 30))
     = (ok tt, b')
  /\ on_put_unique store_ops 100 st k (d_count 5) (Some 30) 1 2 7
     = (with_backend st b',
        [send_reply 2 (d_boolean true) 7; remind 30 k;
         emit_insert_event k (d_count 5) (Some 30) 1;
         broadcast_cmd_to_clones (put_command k (d_count 5) (Some 30) 1)]).
Proof.
  cbv zeta. split; [reflexivity|]. split; [reflexivity|].
  destruct (put_unique_outcome store store_ops 100
              (mk_master (mk_store [] false false false) [])
              (d_string "k") (d_count 5) (Some 30) 1 2 7) as (_ & A & _).
  exact (A eq_refl _ eq_refl).
Defined.

(** [subtract] on an existing count in a healthy store. *)
Lemma subtract_outcome_witness :
  let b := mk_store [(d_string "k", (d_count 5, None))] false false false in
  let st := mk_master b [] in
  let k := d_string "k" in
  let b' := snd (backend_subtract store_ops b k (d_count 2) None) in
  backend_get store_ops b k = ok (d_count 5)
  /\ backend_subtract store_ops b k (d_count 2) (to_opt_timestamp 110 None) = (ok tt, b')
  /\ backend_get store_ops b' k = ok (d_count 3)
  /\ on_subtract store_ops 110 st k (d_count 2) None 1
     = (with_backend st b',
        [emit_update_event k (d_count 5) (d_count 3) None 1;
         broadcast_cmd_to_clones (put_command k (d_count 3) None 1)]).
Proof.
  cbv zeta. split; [reflexivity|]. split; [reflexivity|]. split; [reflexivity|].
  destruct (subtract_outcome store store_ops 110
              (mk_master (mk_store [(d_string "k", (d_count 5, None))] false false false) [])
              (d_string "k") (d_count 2) None 1) as (_ & A & _).
  exact (A (d_count 5) _ (d_count 3) eq_refl eq_refl eq_refl).
Defined.

(** The handlers on a healthy store: [put_unique] of a fresh key with an
    expiry, then [subtract] on it. *)
Example put_unique_then_subtract :
  let st0 := mk_master (mk_store [] false false false) [] in
  let r1 := on_put_unique store_ops 100 st0 (d_string "k") (d_count 5) (Some 30) 1 2 7 in
  let r2 := on_subtract store_ops 110 (fst r1) (d_string "k") (d_count 2) None 1 in
  snd r1 = [send_reply 2 (d_boolean true) 7; remind 30 (d_string "k");
            emit_insert_event (d_string "k") (d_count 5) (Some 30) 1;
            broadcast_cmd_to_clones (put_command (d_string "k") (d_count 5) (Some 30) 1)]
  /\ snd r2 = [emit_update_event (d_string "k") (d_count 5) (d_count 3) None 1;
               broadcast_cmd_to_clones (put_command (d_string "k") (d_count 3) None 1)]
  /\ backend_get store_ops (backend (fst r2)) (d_string "k") = ok (d_count 3).
Proof. cbv zeta. repeat split. Qed.

End Master.

(** ** Address masking *)

Module Address.

(** The sixteen bytes of an address, in network byte order. *)
Definition address := list Z.

Definition well_formed (a : address) : Prop :=
  length a = 16%nat /\ Forall (fun b => 0 <= b < 256) a.

(** [192.168.1.2] as a v4-mapped address. *)
Definition sample : address :=
  [0; 0; 0; 0; 0; 0; 0; 0; 0; 0; 255; 255; 192; 168; 1; 2].

Section Mask.

(** [is_little_endian]: the byte order of the host. *)
Variable is_little_endian : bool.

(** The [uint32_t] read through [reinterpret_cast<uint32_t*>] from four
    consecutive bytes, and the four bytes of a stored [uint32_t]. *)
Definition load32 (b0 b1 b2 b3 : Z) : Z :=
  if is_little_endian
  then b0 + 2 ^ 8 * b1 + 2 ^ 16 * b2 + 2 ^ 24 * b3
  else b3 + 2 ^ 8 * b2 + 2 ^ 16 * b1 + 2 ^ 24 * b0.

Definition store32 (w : Z) : list Z :=
  if is_little_endian
  then [w mod 2 ^ 8; (w / 2 ^ 8) mod 2 ^ 8; (w / 2 ^ 16) mod 2 ^ 8; (w / 2 ^ 24) mod 2 ^ 8]
  else [(w / 2 ^ 24) mod 2 ^ 8; (w / 2 ^ 16) mod 2 ^ 8; (w / 2 ^ 8) mod 2 ^ 8; w mod 2 ^ 8].

Fixpoint load_words (a : list Z) : list Z :=
  match a with
  | b0 :: b1 :: b2 :: b3 :: r => load32 b0 b1 b2 b3 :: load_words r
  | _ => []
  end.

Definition store_words (ws : list Z) : list Z := flat_map store32 ws.

(** [caf::detail::to_network_order] on a [uint32_t]: the identity on a
    big-endian host, the byte swap on a little-endian one. *)
Definition to_network_order (x : Z) : Z :=
  if is_little_endian
  then Z.lor (Z.shiftl (Z.land x 255) 24)
         (Z.lor (Z.shiftl (Z.land (Z.shiftr x 8) 255) 16)
            (Z.lor (Z.shiftl (Z.land (Z.shiftr x 16) 255) 8)
               (Z.land (Z.shiftr x 24) 255)))
  else x.

(** [bit_mask32]. *)
Definition bit_mask32 (bottom_bits : Z) : Z :=
  if bottom_bits >=? 32 then 4294967295
  else wrap32 (Z.shiftl 1 bottom_bits - 1).

(** [~x] on a [uint32_t]. *)
Definition not32 (x : Z) : Z := Z.lxor x 4294967295.

(** [mask[i] = v]. *)
Definition set_word (i : nat) (v : Z) (m : list Z) : list Z :=
  firstn i m ++ v :: skipn (S i) m.

(** The local array [mask] of [address::mask] after its two updates;
    [quot] and [rem] are the results of [std::ldiv]. *)
Definition mask_array (top_bits_to_keep : Z) : list Z :=
  let quot := Z.to_nat (top_bits_to_keep / 32) in
  let rem := top_bits_to_keep mod 32 in
  let m := [4294967295; 4294967295; 4294967295; 4294967295] in
  let m := if (quot <? 4)%nat
           then set_word quot
                  (to_network_order
                     (Z.land (nth quot m 0) (not32 (bit_mask32 (32 - rem))))) m
           else m in
  fold_left (fun m i => set_word i 0 m) (seq (quot + 1) (4 - (quot + 1))) m.

(** [p[i] &= mask[i]] for the four words. *)
Fixpoint and_words (ws ms : list Z) : list Z :=
  match ws, ms with
  | w :: ws', m :: ms' => Z.land w m :: and_words ws' ms'
  | _, _ => []
  end.

(** [address::mask]: the returned flag and the bytes afterwards. *)
Definition mask (a : address) (top_bits_to_keep : Z) : bool * address :=
  if top_bits_to_keep >? 128 then (false, a)
  else (true, store_words (and_words (load_words a) (mask_array top_bits_to_keep))).

(** The values of a [uint32_t]. *)
Definition word_range (w : Z) : Prop := 0 <= w < 2 ^ 32.

(** *** Facts about masking *)

Lemma load32_range (b0 b1 b2 b3 : Z) :
  0 <= b0 < 256 -> 0 <= b1 < 256 -> 0 <= b2 < 256 -> 0 <= b3 < 256 ->
  word_range (load32 b0 b1 b2 b3).
Proof.
  unfold word_range, load32. intros. destruct is_little_endian; lia.
Qed.

Lemma store32_load32 (b0 b1 b2 b3 : Z) :
  0 <= b0 < 256 -> 0 <= b1 < 256 -> 0 <= b2 < 256 -> 0 <= b3 < 256 ->
  store32 (load32 b0 b1 b2 b3) = [b0; b1; b2; b3].
Proof.
  unfold load32, store32. intros.
  destruct is_little_endian; repeat f_equal;
    change (2 ^ 8) with 256; change (2 ^ 16) with 65536;
    change (2 ^ 24) with 16777216; Z.div_mod_to_equations; lia.
Qed.

Lemma load_words_store32 (w : Z) (r : list Z) :
  word_range w -> load_words (store32 w ++ r) = w :: load_words r.
Proof.
  unfold word_range, store32. intros.
  destruct is_little_endian eqn:E; cbn [app load_words]; f_equal;
    unfold load32; rewrite E;
    change (2 ^ 8) with 256; change (2 ^ 16) with 65536;
    change (2 ^ 24) with 16777216; change (2 ^ 32) with 4294967296 in *;
    Z.div_mod_to_equations; lia.
Qed.

Lemma load_words_store_words (ws : list Z) :
  Forall word_range ws -> load_words (store_words ws) = ws.
Proof.
  induction 1 as [|w ws Hw _ IH]; [reflexivity|].
  unfold store_words in *. cbn [flat_map]. now rewrite load_words_store32, IH.
Qed.

Lemma land_word_range (w m : Z) : word_range w -> word_range (Z.land w m).
Proof.
  unfold word_range. intros H.
  assert (E : Z.land w m = Z.land w m mod 2 ^ 32).
  { rewrite <- Z.land_ones by lia.
    rewrite <- Z.land_assoc, (Z.land_comm m), Z.land_assoc, Z.land_ones by lia.
    now rewrite Z.mod_small. }
  rewrite E. apply Z.mod_pos_bound. lia.
Qed.

Lemma and_words_range (ws ms : list Z) :
  Forall word_range ws -> Forall word_range (and_words ws ms).
Proof.
  intros H. revert ms. induction H as [|w ws Hw _ IH]; intros ms; [constructor|].
  destruct ms as [|m ms]; cbn [and_words]; constructor;
    [now apply land_word_range | apply IH].
Qed.

Lemma and_words_idem (ws ms : list Z) :
  and_words (and_words ws ms) ms = and_words ws ms.
Proof.
  revert ms. induction ws as [|w ws IH]; intros ms; [reflexivity|].
  destruct ms as [|m ms]; cbn [and_words]; [reflexivity|].
  now rewrite <- Z.land_assoc, Z.land_diag, IH.
Qed.

(** A well-formed address is sixteen bytes; its four words are in range and
    storing them gives the address back. *)
Lemma well_formed_words (a : address) :
  well_formed a ->
  Forall word_range (load_words a)
  /\ length (load_words a) = 4%nat
  /\ store_words (load_words a) = a.
Proof.
  intros [Hlen Hr].
  do 16 (destruct a as [|? a]; [discriminate|]).
  destruct a; [|discriminate].
  repeat match goal with
         | H : Forall _ (_ :: _) |- _ => inversion H; clear H; subst
         end.
  cbn [load_words store_words flat_map length].
  repeat split.
  - repeat constructor; now apply load32_range.
  - rewrite !store32_load32 by assumption. reflexivity.
Qed.

Lemma mask_array_length (n : Z) :
  0 <= n <= 128 -> length (mask_array n) = 4%nat.
Proof.
  intros H.
  assert (G : forallb (fun k => Nat.eqb (length (mask_array (Z.of_nat k))) 4)
                      (seq 0 129) = true).
  { unfold mask_array, to_network_order. destruct is_little_endian; vm_compute; reflexivity. }
  rewrite forallb_forall in G.
  specialize (G (Z.to_nat n)). rewrite Z2Nat.id in G by lia.
  apply Nat.eqb_eq. apply G. apply in_seq. lia.
Qed.

Lemma mask_array_128 : mask_array 128 = [4294967295; 4294967295; 4294967295; 4294967295].
Proof. reflexivity. Qed.

Lemma mask_array_0 : mask_array 0 = [0; 0; 0; 0].
Proof. unfold mask_array, to_network_order. destruct is_little_endian; reflexivity. Qed.

(** C9: for every address (sixteen bytes) and every [n] from 0 to 128,
    [mask n] returns true and masking twice gives the same bytes as masking
    once; [mask 128] leaves the sixteen bytes unchanged; [mask 0] makes all
    sixteen bytes zero; and for every [n] above 128, [mask n] returns
    false. *)
Theorem mask_properties (a : address) (n : Z) :
  well_formed a ->
  (0 <= n <= 128 ->
     fst (mask a n) = true
     /\ snd (mask (snd (mask a n)) n) = snd (mask a n))
  /\ snd (mask a 128) = a
  /\ snd (mask a 0) = repeat 0 16
  /\ (128 < n -> fst (mask a n) = false).
Proof.
  intros Hwf. destruct (well_formed_words a Hwf) as (Hr & Hl & Hs).
  split; [|split; [|split]].
  - intros Hn. unfold mask.
    destruct (Z.gtb_spec n 128); [lia|]. cbn [fst snd]. split; [reflexivity|].
    rewrite load_words_store_words by (now apply and_words_range).
    now rewrite and_words_idem.
  - unfold mask. cbn [Z.gtb Z.compare Pos.compare Pos.compare_cont snd].
    rewrite mask_array_128. rewrite <- Hs at 2. f_equal.
    destruct (load_words a) as [|w0 [|w1 [|w2 [|w3 [|]]]]]; try discriminate.
    repeat match goal with
           | H : Forall _ (_ :: _) |- _ => inversion H; clear H; subst
           end.
    unfold word_range in *. cbn [and_words].
    change 4294967295 with (Z.ones 32).
    rewrite !Z.land_ones, !Z.mod_small by lia. reflexivity.
  - unfold mask. cbn [Z.gtb Z.compare snd]. rewrite mask_array_0.
    destruct (load_words a) as [|w0 [|w1 [|w2 [|w3 [|]]]]]; try discriminate.
    cbn [and_words]. rewrite !Z.land_0_r.
    unfold store_words, store32. destruct is_little_endian; reflexivity.
  - intros Hn. unfold mask. destruct (Z.gtb_spec n 128); [reflexivity | lia].
Qed.

End Mask.

(** [sample] masked to its upper 112 bits (a /16 network), on either byte
    order. *)
Example mask_sample :
  mask true sample 112
  = (true, [0; 0; 0; 0; 0; 0; 0; 0; 0; 0; 255; 255; 192; 168; 0; 0])
  /\ mask false sample 112 = mask true sample 112
  /\ mask true sample 129 = (false, sample).
Proof. repeat split. Qed.

(** The properties at [sample] on a little-endian host. *)
Lemma mask_properties_witness :
  well_formed sample
  /\ snd (mask true (snd (mask true sample 112)) 112) = snd (mask true sample 112)
  /\ snd (mask true sample 128) = sample
  /\ snd (mask true sample 0) = repeat 0 16.
Proof.
  assert (Hwf : well_formed sample).
  { split; [reflexivity|]. repeat constructor; discriminate. }
  destruct (mask_properties true sample 112 Hwf) as (C1 & C2 & C3 & _).
  destruct C1 as [_ C1]; [split; discriminate|].
  repeat split; try assumption. repeat constructor; discriminate.
Defined.

End Address.

(** ** Further properties of the producer *)

Module ProducerProps.

Import Channel Channel.Producer.

Set Implicit Arguments.

Section ProducerProps.

Variable Handle : Type.
Variable Handle_eqb : Handle -> Handle -> bool.
Variable Payload : Type.

(** All four entry points of the producer. *)
Inductive producer_op : Type :=
| op_produce (c : Payload)
| op_add (h : Handle)
| op_handle_ack (h : Handle) (seq : Z)
| op_handle_nack (h : Handle) (seqs : list Z).

Definition op_step (p : producer Handle Payload) (o : producer_op)
  : producer Handle Payload * list (producer_output Handle Payload) :=
  match o with
  | op_produce c => produce p c
  | op_add h => fst (add Handle_eqb p h)
  | op_handle_ack h s => (handle_ack Handle_eqb p h s, [])
  | op_handle_nack h seqs => handle_nack Handle_eqb p h seqs
  end.

Fixpoint op_run (p : producer Handle Payload) (os : list producer_op)
  : producer Handle Payload * list (producer_output Handle Payload) :=
  match os with
  | [] => (p, [])
  | o :: os' =>
      let (p1, o1) := op_step p o in
      let (p2, o2) := op_run p1 os' in
      (p2, o1 ++ o2)
  end.

(** No path's handle compares equal to the handle of a later path. *)
Definition unique_handles (ps : list (path Handle)) : Prop :=
  ForallOrdPairs (fun x y => Handle_eqb (hdl x) (hdl y) = false) ps.

(** The consumer a message of the producer is addressed to; the fan-out of
    [produce] names no single consumer. *)
Definition addressee (o : producer_output Handle Payload) : option Handle :=
  match o with
  | send_paths _ _ => None
  | send_handshake _ h _ => Some h
  | send_event h _ => Some h
  | send_retransmit_failed _ h _ => Some h
  end.

Unset Implicit Arguments.

Lemma unique_handles_snoc (ps : list (path Handle)) (y : path Handle) :
  unique_handles ps ->
  Forall (fun x => Handle_eqb (hdl x) (hdl y) = false) ps ->
  unique_handles (ps ++ [y]).
Proof.
  unfold unique_handles. induction 1 as [|a l Ha Hl IH]; intros Hy; cbn [app].
  - constructor; constructor.
  - inversion Hy; subst. constructor; [|now apply IH].
    apply Forall_app. split; [exact Ha|]. constructor; [assumption|constructor].
Qed.

Lemma unique_handles_set_acked (ps : list (path Handle)) (h : Handle) (s : Z) :
  unique_handles ps -> unique_handles (map (set_acked Handle_eqb h s) ps).
Proof.
  assert (Hh : forall x, hdl (set_acked Handle_eqb h s x) = hdl x).
  { intros x. unfold set_acked. now destruct (Handle_eqb (hdl x) h). }
  unfold unique_handles. induction 1 as [|a l Ha Hl IH]; cbn [map]; constructor.
  - rewrite Forall_map. eapply Forall_impl; [|exact Ha].
    cbn beta. intros x Hx. now rewrite !Hh.
  - exact IH.
Qed.

Lemma find_path_none (h : Handle) (ps : list (path Handle)) :
  find_path Handle_eqb h ps = None ->
  Forall (fun x => Handle_eqb (hdl x) h = false) ps.
Proof.
  intros H. rewrite Forall_forall. intros x Hx.
  exact (find_none _ _ H x Hx).
Qed.

Lemma find_app_none {A : Type} (f : A -> bool) (l r : list A) :
  find f l = None -> find f (l ++ r) = find f r.
Proof.
  induction l as [|x l IH]; [reflexivity|]. cbn [find app].
  destruct (f x); [discriminate | exact IH].
Qed.

Lemma handle_nack_state (p : producer Handle Payload) (h : Handle) (seqs : list Z) :
  fst (handle_nack Handle_eqb p h seqs) = p
  \/ exists s, fst (handle_nack Handle_eqb p h seqs) = handle_ack Handle_eqb p h s.
Proof.
  unfold handle_nack. destruct seqs as [|first rest]; [now left|].
  destruct (find_path Handle_eqb h (paths_ p)); [|now left].
  destruct (first =? 0); [now left|]. right. eexists. reflexivity.
Qed.

Lemma op_step_unique (p : producer Handle Payload) (o : producer_op) :
  unique_handles (paths_ p) -> unique_handles (paths_ (fst (op_step p o))).
Proof.
  intros H. destruct o as [c|h|h s|h seqs]; cbn [op_step].
  - exact H.
  - unfold add. destruct (find_path Handle_eqb h (paths_ p)) eqn:E; [exact H|].
    cbn [fst paths_]. apply unique_handles_snoc; [exact H|].
    exact (find_path_none h _ E).
  - cbn [fst]. rewrite handle_ack_paths. now apply unique_handles_set_acked.
  - destruct (handle_nack_state p h seqs) as [->|[s ->]]; [exact H|].
    rewrite handle_ack_paths. now apply unique_handles_set_acked.
Qed.

(** X1: whatever is called on a producer, in whatever order, no two of its
    paths carry the same handle; and once a handle (equal to itself) has been
    added, adding it again returns [consumer_exists], sends nothing and
    changes nothing. *)
Theorem add_keeps_handles_unique :
  (forall os, unique_handles (paths_ (fst (op_run (producer_init Handle Payload) os))))
  /\ (forall (p : producer Handle Payload) h, Handle_eqb h h = true ->
        let p1 := fst (fst (add Handle_eqb p h)) in
        add Handle_eqb p1 h = (p1, [], Some consumer_exists)).
Proof.
  split.
  - assert (G : forall os p, unique_handles (paths_ p) ->
                unique_handles (paths_ (fst (op_run p os)))).
    { induction os as [|o os IH]; intros p H; [exact H|].
      cbn [op_run]. pose proof (op_step_unique p o H) as H1.
      destruct (op_step p o) as [p1 o1]. cbn [fst] in H1.
      specialize (IH p1 H1). now destruct (op_run p1 os). }
    intros os. apply G. constructor.
  - intros p h Hr. cbn zeta. unfold add at 2 3.
    destruct (find_path Handle_eqb h (paths_ p)) as [x|] eqn:E; cbn [fst].
    + unfold add. now rewrite E.
    + unfold add. cbn [paths_]. unfold find_path in *.
      rewrite (find_app_none _ _ _ E). cbn [find hdl]. now rewrite Hr.
Qed.

(** X2: in a run of honest acknowledgements, a producer that has a path
    and reports [idle] holds no event in its retransmission buffer. *)
Theorem idle_producer_has_empty_buffer
  (hs : list Handle) (cs : list (producer_call Handle Payload)) :
  calls_sat Handle_eqb (ack_honest Handle_eqb (Payload:=Payload))
            (add_all Handle_eqb hs) cs ->
  Z.of_nat (length cs) < 2 ^ 64 ->
  let p := fst (producer_run Handle_eqb (add_all Handle_eqb hs) cs) in
  paths_ p <> [] -> idle p = true -> buf_ p = [].
Proof.
  intros Hok Hlen p Hne Hidle. subst p.
  destruct (inv_run Handle Handle_eqb Payload cs [] (add_all Handle_eqb hs)
              (inv_add_all Handle Handle_eqb Payload hs) Hok)
    as [(Hs & HP & HF & Hb) _]; [simpl; lia|].
  cbn [app] in *.
  set (p := fst (producer_run Handle_eqb (add_all Handle_eqb hs) cs)) in *.
  unfold idle in Hidle. rewrite forallb_forall in Hidle.
  assert (Hm : min_acked (paths_ p) = seq_ p).
  { destruct (min_acked_spec Handle _ Hne) as ((x & Hx & <-) & _).
    specialize (Hidle x Hx). cbn beta in Hidle. lia. }
  rewrite Hb, Hm, Hs, Nat2Z.id. apply skipn_all.
Qed.

(** Looking up a sequence number in a run of consecutive events. *)
Lemma find_event_consecutive (L : list (event Payload)) (a s : Z) :
  map ev_seq L = zseq a (length L) ->
  find_event s L
  = if (a <=? s) && (s <? a + Z.of_nat (length L))
    then nth_error L (Z.to_nat (s - a)) else None.
Proof.
  revert a; induction L as [|e L IH]; intros a H.
  - cbn. destruct ((a <=? s) && (s <? a + 0)) eqn:E; [|reflexivity].
    apply andb_prop in E. lia.
  - cbn [map length zseq] in H. injection H as He HL.
    unfold find_event in *. cbn [find length]. rewrite He.
    destruct (Z.eqb_spec a s) as [->|Hne].
    + replace (Z.to_nat (s - s)) with 0%nat by lia. cbn [nth_error].
      destruct (Z.leb_spec s s); [|lia].
      destruct (Z.ltb_spec s (s + Z.of_nat (S (length L)))); [reflexivity|lia].
    + rewrite (IH (a + 1) HL).
      destruct (Z.leb_spec (a + 1) s), (Z.leb_spec a s); try lia; cbn [andb];
        [|reflexivity].
      destruct (Z.ltb_spec s (a + 1 + Z.of_nat (length L))),
               (Z.ltb_spec s (a + Z.of_nat (S (length L)))); try lia;
        [|reflexivity].
      replace (Z.to_nat (s - a)) with (S (Z.to_nat (s - (a + 1)))) by lia.
      reflexivity.
Qed.

(** X3: in a run of honest acknowledgements, [find_event] on the
    retransmission buffer returns the event produced under a sequence number
    exactly when that number is above the minimum acknowledged one and at
    most [seq_]; every other number is reported missing. *)
Theorem find_event_of_produced
  (hs : list Handle) (cs : list (producer_call Handle Payload)) (s : Z) :
  calls_sat Handle_eqb (ack_honest Handle_eqb (Payload:=Payload))
            (add_all Handle_eqb hs) cs ->
  Z.of_nat (length cs) < 2 ^ 64 ->
  let r := producer_run Handle_eqb (add_all Handle_eqb hs) cs in
  find_event s (buf_ (fst r))
  = if (min_acked (paths_ (fst r)) <? s) && (s <=? seq_ (fst r))
    then nth_error (produced (snd r)) (Z.to_nat (s - 1)) else None.
Proof.
  intros Hok Hlen r. subst r.
  destruct (inv_run Handle Handle_eqb Payload cs [] (add_all Handle_eqb hs)
              (inv_add_all Handle Handle_eqb Payload hs) Hok)
    as [(Hs & HP & HF & Hb) _]; [simpl; lia|].
  cbn [app] in *.
  set (p := fst (producer_run Handle_eqb (add_all Handle_eqb hs) cs)) in *.
  set (P := produced (snd (producer_run Handle_eqb (add_all Handle_eqb hs) cs))) in *.
  assert (Hm := min_acked_bounds Handle (paths_ p) (seq_ p) ltac:(lia) HF).
  set (m := min_acked (paths_ p)) in *.
  rewrite Hb.
  rewrite (find_event_consecutive _ (1 + Z.of_nat (Z.to_nat m)))
    by (now apply skipn_consecutive).
  rewrite length_skipn, nth_error_skipn.
  destruct (Z.leb_spec (1 + Z.of_nat (Z.to_nat m)) s), (Z.ltb_spec m s); try lia;
    cbn [andb]; [|reflexivity].
  destruct (Z.ltb_spec s (1 + Z.of_nat (Z.to_nat m) + Z.of_nat (length P - Z.to_nat m))),
           (Z.leb_spec s (seq_ p)); try lia; [|reflexivity].
  f_equal. lia.
Qed.

Lemma erase_until_suffix {A : Type} (pred : A -> bool) (l : list A) :
  exists pre, l = pre ++ erase_until pred l /\ Forall (fun x => pred x = false) pre.
Proof.
  induction l as [|x l (pre & E & F)].
  - exists []. split; [reflexivity|constructor].
  - cbn [erase_until]. destruct (pred x) eqn:Px.
    + exists []. split; [reflexivity|constructor].
    + exists (x :: pre). split; [cbn; now f_equal | now constructor].
Qed.

Lemma handle_ack_frame
  (p : producer Handle Payload) (h : Handle) (s : Z) :
  let p' := handle_ack Handle_eqb p h s in
  seq_ p' = seq_ p
  /\ map (@hdl Handle) (paths_ p') = map (@hdl Handle) (paths_ p)
  /\ map (@offset Handle) (paths_ p') = map (@offset Handle) (paths_ p)
  /\ exists dropped, buf_ p = dropped ++ buf_ p'
       /\ Forall (fun e => ev_seq e <= s) dropped.
Proof.
  cbn zeta. split; [|split; [|split]].
  - unfold handle_ack. now destruct (ack_loop Handle_eqb h s (paths_ p) s).
  - rewrite handle_ack_paths, map_map. apply map_ext. intros x.
    unfold set_acked. now destruct (Handle_eqb (hdl x) h).
  - rewrite handle_ack_paths, map_map. apply map_ext. intros x.
    unfold set_acked. now destruct (Handle_eqb (hdl x) h).
  - unfold handle_ack.
    pose proof (ack_loop_min Handle Handle_eqb h s (paths_ p) s) as (Ha & _).
    destruct (ack_loop Handle_eqb h s (paths_ p) s) as [ps a]. cbn [snd buf_] in *.
    destruct (erase_until_suffix (fun x : event Payload => ev_seq x >? a) (buf_ p))
      as (pre & E & F).
    exists pre. split; [exact E|].
    eapply Forall_impl; [|exact F]. cbn beta. intros e He.
    destruct (Z.gtb_spec (ev_seq e) a); [discriminate | lia].
Qed.

(** X4: [handle_ack], in any state and with any arguments, keeps [seq_],
    keeps the handle and the offset of every path, and only drops events
    from the front of the buffer, none of them with a sequence number above
    the acknowledged value. *)
Theorem handle_ack_only_prunes_acknowledged
  (p : producer Handle Payload) (h : Handle) (s : Z) :
  let p' := handle_ack Handle_eqb p h s in
  seq_ p' = seq_ p
  /\ map (@hdl Handle) (paths_ p') = map (@hdl Handle) (paths_ p)
  /\ map (@offset Handle) (paths_ p') = map (@offset Handle) (paths_ p)
  /\ exists dropped, buf_ p = dropped ++ buf_ p'
       /\ Forall (fun e => ev_seq e <= s) dropped.
Proof. exact (handle_ack_frame p h s). Qed.

(** X5: adding a consumer never changes whether the producer is idle (the new
    path starts at [acked = seq_]); producing an event makes a producer with
    at least one path, none acknowledged beyond [seq_], not idle. *)
Theorem idle_after_add_and_produce (p : producer Handle Payload) :
  (forall h, idle (fst (fst (add Handle_eqb p h))) = idle p)
  /\ (forall c,
        paths_ p <> [] ->
        Forall (fun x => acked x <= seq_ p) (paths_ p) ->
        0 <= seq_ p -> seq_ p + 1 < 2 ^ 64 ->
        idle (fst (produce p c)) = false).
Proof.
  split.
  - intros h. unfold add. destruct (find_path Handle_eqb h (paths_ p)); [reflexivity|].
    unfold idle. cbn [fst paths_ seq_]. rewrite forallb_app. cbn [forallb acked].
    rewrite Z.eqb_refl. now rewrite !andb_true_r.
  - intros c Hne HF H0 Hlt. unfold produce, idle. cbn [fst paths_ seq_].
    assert (Hw : wrap64 (seq_ p + 1) = seq_ p + 1)
      by (unfold wrap64; apply Z.mod_small; lia).
    rewrite Hw. destruct (paths_ p) as [|x ps]; [congruence|].
    inversion HF; subst. cbn [forallb].
    destruct (Z.eqb_spec (acked x) (seq_ p + 1)); [lia | reflexivity].
Qed.

(** X6: [handle_nack], in any state and with any arguments, leaves [seq_] and
    the handles of the paths alone and sends every message to the consumer
    that asked. *)
Theorem handle_nack_answers_requester
  (p : producer Handle Payload) (h : Handle) (seqs : list Z) :
  let r := handle_nack Handle_eqb p h seqs in
  seq_ (fst r) = seq_ p
  /\ map (@hdl Handle) (paths_ (fst r)) = map (@hdl Handle) (paths_ p)
  /\ Forall (fun o => addressee o = Some h) (snd r).
Proof.
  cbn zeta.
  pose proof (handle_ack_frame p h) as A. cbn zeta in A.
  split; [|split].
  - destruct (handle_nack_state p h seqs) as [->|[s ->]]; [reflexivity|]. apply A.
  - destruct (handle_nack_state p h seqs) as [->|[s ->]]; [reflexivity|]. apply A.
  - unfold handle_nack. destruct seqs as [|first rest]; [constructor|].
    destruct (find_path Handle_eqb h (paths_ p)); [|constructor].
    destruct (first =? 0); cbn [snd]; [repeat constructor|].
    rewrite Forall_map. rewrite Forall_forall. intros s _.
    unfold resend. now destruct (find_event s _).
Qed.

End ProducerProps.

(** *** Concrete runs: handles and payloads are natural numbers *)

(** One consumer, one event produced and acknowledged: the producer is idle
    and its buffer is empty. *)
Lemma idle_producer_has_empty_buffer_witness :
  let hs := [1%nat] in
  let cs := [call_produce 7%nat; call_handle_ack 1%nat 1] in
  let p := fst (producer_run Nat.eqb (add_all Nat.eqb hs) cs) in
  calls_sat Nat.eqb (ack_honest Nat.eqb (Payload:=nat)) (add_all Nat.eqb hs) cs
  /\ Z.of_nat (length cs) < 2 ^ 64
  /\ idle p = true
  /\ buf_ p = [].
Proof.
  cbv zeta.
  assert (Hok : calls_sat Nat.eqb (ack_honest Nat.eqb (Payload:=nat))
                  (add_all Nat.eqb [1%nat])
                  [call_produce 7%nat; call_handle_ack 1%nat 1]).
  { cbn. unfold ack_honest. cbn.
    repeat split; try exact I; try discriminate.
    intros x [<-|[]] E; cbn in *; discriminate. }
  assert (Hlen : Z.of_nat (length [call_produce (Handle:=nat) 7%nat;
                                   call_handle_ack 1%nat 1]) < 2 ^ 64)
    by (vm_compute; reflexivity).
  split; [exact Hok|]. split; [exact Hlen|]. split; [reflexivity|].
  apply (@idle_producer_has_empty_buffer nat Nat.eqb nat _ _ Hok Hlen);
    [discriminate | reflexivity].
Defined.

(** One consumer, two events, the first acknowledged: event 2 is found in
    the buffer and is the second event produced; event 1 is gone. *)
Lemma find_event_of_produced_witness :
  let hs := [1%nat] in
  let cs := [call_produce 7%nat; call_produce 8%nat; call_handle_ack 1%nat 1] in
  let r := producer_run Nat.eqb (add_all Nat.eqb hs) cs in
  calls_sat Nat.eqb (ack_honest Nat.eqb (Payload:=nat)) (add_all Nat.eqb hs) cs
  /\ Z.of_nat (length cs) < 2 ^ 64
  /\ find_event 2 (buf_ (fst r)) = Some (mk_event 2 8%nat)
  /\ find_event 1 (buf_ (fst r)) = None.
Proof.
  cbv zeta.
  assert (Hok : calls_sat Nat.eqb (ack_honest Nat.eqb (Payload:=nat))
                  (add_all Nat.eqb [1%nat])
                  [call_produce 7%nat; call_produce 8%nat; call_handle_ack 1%nat 1]).
  { cbn. unfold ack_honest. cbn.
    repeat split; try exact I; try discriminate.
    intros x [<-|[]] E; cbn in *; discriminate. }
  assert (Hlen : Z.of_nat (length [call_produce (Handle:=nat) 7%nat; call_produce 8%nat;
                                   call_handle_ack 1%nat 1]) < 2 ^ 64)
    by (vm_compute; reflexivity).
  split; [exact Hok|]. split; [exact Hlen|]. split.
  - exact (@find_event_of_produced nat Nat.eqb nat _ _ 2 Hok Hlen).
  - reflexivity.
Defined.

End ProducerProps.

(** ** Further properties of the consumer *)

Module ConsumerProps.

Import Channel Channel.Consumer.

Set Implicit Arguments.

Section ConsumerProps.

Variable Payload : Type.
Variable max_size : Z.

(** The events handed to [handle_event] by a list of calls, in order. *)
Fixpoint events_of (ks : list (consumer_call Payload)) : list (event Payload) :=
  match ks with
  | [] => []
  | call_event s x :: ks' => mk_event s x :: events_of ks'
  | _ :: ks' => events_of ks'
  end.

(** The deliveries among the outputs, as events. *)
Fixpoint consumed (o : list (consumer_output Payload)) : list (event Payload) :=
  match o with
  | [] => []
  | consume s x :: o' => mk_event s x :: consumed o'
  | _ :: o' => consumed o'
  end.

(** What the consumer knows of the events received so far ([E]) while it
    works through the sequence numbers from [n] up to, not including,
    [bound]: everything below [next_seq_] has been received, every received
    event is below [next_seq_] or buffered, and the buffer holds received
    events only. *)
Definition tracking (n bound : Z) (E : list (event Payload))
  (c : consumer Payload) : Prop :=
  n <= next_seq_ c
  /\ (forall e, In e E -> ev_seq e < bound)
  /\ (forall e, In e E ->
        ev_seq e < next_seq_ c \/ In (ev_seq e) (map ev_seq (buf_ c)))
  /\ (forall e, In e (buf_ c) -> In e E)
  /\ (forall s, n <= s < next_seq_ c -> In s (map ev_seq E))
  /\ ascending (buf_ c)
  /\ Forall (fun e => next_seq_ c < ev_seq e) (buf_ c).

Unset Implicit Arguments.

Lemma zseq_In_iff (x s : Z) (n : nat) :
  In x (zseq s n) <-> s <= x < s + Z.of_nat n.
Proof.
  split; [apply zseq_In|].
  revert s; induction n as [|n IH]; intros s H; [lia|].
  cbn [zseq In]. destruct (Z.eq_dec s x) as [->|Hne]; [now left|].
  right. apply IH. lia.
Qed.

Lemma consumed_app (o1 o2 : list (consumer_output Payload)) :
  consumed (o1 ++ o2) = consumed o1 ++ consumed o2.
Proof.
  induction o1 as [|x o1 IH]; [reflexivity|].
  destruct x; cbn [app consumed]; now rewrite ?IH.
Qed.

Lemma delivered_consumed (o : list (consumer_output Payload)) :
  delivered o = map ev_seq (consumed o).
Proof.
  induction o as [|x o IH]; [reflexivity|].
  destruct x; cbn [delivered consumed map ev_seq]; now rewrite ?IH.
Qed.

Lemma events_of_app (k1 k2 : list (consumer_call Payload)) :
  events_of (k1 ++ k2) = events_of k1 ++ events_of k2.
Proof.
  induction k1 as [|x k1 IH]; [reflexivity|].
  destruct x; cbn [app events_of]; now rewrite ?IH.
Qed.

(** The drain loop on a buffer whose sequence numbers stay below a 64-bit
    bound: it delivers a prefix of consecutive events and stops at the first
    entry that is not the next number. *)
Lemma try_consume_loop_prefix (bound : Z) (b : list (event Payload)) :
  forall next,
  0 <= next -> bound < 2 ^ 64 ->
  Forall (fun e => ev_seq e < bound) b ->
  let '(n', r, o) := try_consume_loop next b in
  exists pre,
    b = pre ++ r
    /\ map ev_seq pre = zseq next (length pre)
    /\ n' = next + Z.of_nat (length pre)
    /\ consumed o = pre
    /\ (forall o', In o' o -> exists s x, o' = consume s x).
Proof.
  induction b as [|e b IH]; intros next H0 HB HF.
  - cbn. exists []. cbn. repeat split; [lia | contradiction].
  - inversion HF as [|? ? He HF']; subst. cbn [try_consume_loop].
    destruct (Z.eqb_spec (ev_seq e) next) as [E|E].
    + assert (Hw : wrap64 (next + 1) = next + 1)
        by (unfold wrap64; apply Z.mod_small; lia).
      rewrite Hw. specialize (IH (next + 1) ltac:(lia) HB HF').
      destruct (try_consume_loop (next + 1) b) as [[n' r] o].
      destruct IH as (pre & I1 & I2 & I3 & I4 & I5).
      exists (e :: pre). cbn [app map length zseq consumed]. repeat split.
      * now rewrite I1.
      * now rewrite E, I2.
      * lia.
      * rewrite I4. f_equal. destruct e; cbn in *. now subst.
      * intros o' [<-|Ho]; [eauto | now apply I5].
    + exists []. cbn. repeat split; [lia | contradiction].
Qed.

Lemma insert_event_In (seq : Z) (payload : Payload) (b : list (event Payload))
  (e : event Payload) :
  In e (insert_event seq payload b) -> e = mk_event seq payload \/ In e b.
Proof.
  induction b as [|x b IH]; cbn [insert_event].
  - intros [<-|[]]. now left.
  - destruct (ev_seq x >=? seq).
    + destruct (negb (ev_seq x =? seq)); [|now right].
      intros [<-|H]; [now left | now right].
    + intros [<-|H]; [right; now left|].
      destruct (IH H) as [->|H']; [now left | right; now right].
Qed.

Lemma insert_event_has (seq : Z) (payload : Payload) (b : list (event Payload)) :
  In seq (map ev_seq (insert_event seq payload b))
  /\ (forall s, In s (map ev_seq b) -> In s (map ev_seq (insert_event seq payload b))).
Proof.
  induction b as [|x b [IH1 IH2]]; cbn [insert_event].
  - split; [now left | intros s []].
  - destruct (Z.geb_spec (ev_seq x) seq) as [Hge|Hlt].
    + destruct (Z.eqb_spec (ev_seq x) seq) as [He|Hne]; cbn [negb].
      * split; [left; exact He | auto].
      * split; [now left | intros s Hs; now right].
    + cbn [map In]. split; [now right|].
      intros s [<-|Hs]; [now left | right; now apply IH2].
Qed.

(** One call (an event below [bound], or a tick) keeps [tracking] and
    delivers consecutive numbers starting at [next_seq_]. *)
Lemma step_tracking (n bound : Z) (E : list (event Payload))
  (c : consumer Payload) (k : consumer_call Payload) :
  0 <= n -> bound < 2 ^ 64 ->
  tracking n bound E c ->
  is_handshake k = false ->
  (forall e, In e (events_of [k]) -> ev_seq e < bound) ->
  let r := consumer_step max_size c k in
  tracking n bound (E ++ events_of [k]) (fst r)
  /\ delivered (snd r)
     = zseq (next_seq_ c) (Z.to_nat (next_seq_ (fst r) - next_seq_ c))
  /\ (forall e, In e (consumed (snd r)) -> In e (E ++ events_of [k])).
Proof.
  intros Hn0 HB (T1 & T2 & T3 & T4 & T5 & T6 & T7) Hk Hb. cbn zeta.
  destruct k as [off|seq payload|]; [discriminate| |].
  - cbn [events_of] in *. cbn [consumer_step]. unfold handle_event.
    assert (Hseq : seq < bound) by (apply (Hb (mk_event seq payload)); now left).
    destruct (Z.eqb_spec (next_seq_ c) seq) as [Eq|Ne].
    + (* the expected event: deliver and drain *)
      unfold try_consume_buffer.
      assert (Hw : wrap64 (next_seq_ c + 1) = next_seq_ c + 1)
        by (unfold wrap64; apply Z.mod_small; lia).
      rewrite Hw.
      assert (HF : Forall (fun e => ev_seq e < bound) (buf_ c)).
      { rewrite Forall_forall. intros e He. apply T2. now apply T4. }
      pose proof (try_consume_loop_prefix bound (buf_ c) (next_seq_ c + 1)
                    ltac:(lia) HB HF) as L.
      assert (HF1 : Forall (fun e => next_seq_ c + 1 <= ev_seq e) (buf_ c)).
      { eapply Forall_impl; [|exact T7]. cbn beta. intros; lia. }
      pose proof (try_consume_loop_above Payload (buf_ c) (next_seq_ c + 1)
                    ltac:(lia) T6 HF1) as La.
      destruct (try_consume_loop (next_seq_ c + 1) (buf_ c)) as [[n' r] o].
      destruct L as (pre & L1 & L2 & L3 & L4 & L5).
      destruct La as [_ Habove].
      cbn [fst snd next_seq_ buf_ delivered consumed].
      rewrite Forall_forall in T7.
      assert (Hr : ascending r) by (rewrite L1 in T6; now apply ascending_suffix in T6).
      assert (Hpre : forall s, In s (map ev_seq pre)
                               <-> next_seq_ c + 1 <= s < n').
      { intros s. rewrite L2, zseq_In_iff. lia. }
      split; [|split].
      * unfold tracking. cbn [next_seq_ buf_]. repeat split.
        -- lia.
        -- intros e He. apply in_app_or in He. destruct He as [He|[<-|[]]];
             [now apply T2 | exact Hseq].
        -- intros e He. apply in_app_or in He. destruct He as [He|[<-|[]]].
           ++ destruct (T3 e He) as [Hlt|Hin]; [left; lia|].
              rewrite L1, map_app in Hin. apply in_app_or in Hin.
              destruct Hin as [Hin|Hin]; [left; apply Hpre in Hin; lia | now right].
           ++ left. cbn [ev_seq]. lia.
        -- intros e He. apply in_or_app. left. apply T4. rewrite L1.
           apply in_or_app. now right.
        -- intros s Hs. rewrite map_app. apply in_or_app.
           destruct (Z.lt_ge_cases s (next_seq_ c)) as [Hlt|Hge];
             [left; apply T5; lia|].
           destruct (Z.eq_dec s (next_seq_ c)) as [->|Hne];
             [right; left; cbn; lia|].
           left. assert (Hin : In s (map ev_seq pre)) by (apply Hpre; lia).
           apply in_map_iff in Hin. destruct Hin as (e & <- & He).
           apply in_map. apply T4. rewrite L1. apply in_or_app. now left.
        -- exact Hr.
        -- exact Habove.
      * rewrite delivered_consumed, L4, L2, L3.
        replace (Z.to_nat (next_seq_ c + 1 + Z.of_nat (length pre) - next_seq_ c))
          with (S (length pre)) by lia.
        reflexivity.
      * intros e [<-|He].
        -- apply in_or_app. right. left. now rewrite Eq.
        -- apply in_or_app. left. apply T4. rewrite L1, <- L4.
           apply in_or_app. now left.
    + destruct (Z.gtb_spec seq (next_seq_ c)) as [G|G].
      * (* ahead of the expected one: buffered *)
        cbn [fst snd next_seq_ buf_ delivered consumed].
        destruct (insert_event_has seq payload (buf_ c)) as [I1 I2].
        split; [|split].
        -- unfold tracking. cbn [next_seq_ buf_]. repeat split.
           ++ exact T1.
           ++ intros e He. apply in_app_or in He. destruct He as [He|[<-|[]]];
                [now apply T2 | exact Hseq].
           ++ intros e He. apply in_app_or in He. destruct He as [He|[<-|[]]].
              ** destruct (T3 e He) as [Hlt|Hin]; [now left | right; now apply I2].
              ** right. exact I1.
           ++ intros e He. apply insert_event_In in He. apply in_or_app.
              destruct He as [->|He]; [right; now left | left; now apply T4].
           ++ intros s Hs. rewrite map_app. apply in_or_app. left. now apply T5.
           ++ now apply insert_event_ascending.
           ++ rewrite Forall_forall in *. intros e He. apply insert_event_In in He.
              destruct He as [->|He]; [cbn; lia | now apply T7].
        -- replace (Z.to_nat (next_seq_ c - next_seq_ c)) with 0%nat by lia. reflexivity.
        -- intros e [].
      * (* behind the expected one: discarded *)
        cbn [fst snd delivered consumed]. split; [|split].
        -- unfold tracking. repeat split; auto.
           ++ intros e He. apply in_app_or in He. destruct He as [He|[<-|[]]];
                [now apply T2 | exact Hseq].
           ++ intros e He. apply in_app_or in He. destruct He as [He|[<-|[]]];
                [now apply T3 | left; cbn; lia].
           ++ intros e He. apply in_or_app. left. now apply T4.
           ++ intros s Hs. rewrite map_app. apply in_or_app. left. now apply T5.
        -- replace (Z.to_nat (next_seq_ c - next_seq_ c)) with 0%nat by lia. reflexivity.
        -- intros e [].
  - cbn [events_of consumer_step]. rewrite app_nil_r.
    destruct (tick_frame Payload max_size c) as (Eb & En & Ed).
    split; [|split].
    + unfold tracking. rewrite Eb, En. repeat split; assumption.
    + rewrite Ed, En. replace (Z.to_nat (next_seq_ c - next_seq_ c)) with 0%nat by lia.
      reflexivity.
    + rewrite delivered_consumed in Ed. apply map_eq_nil in Ed. rewrite Ed. intros e [].
Qed.

Lemma step_next_le (n bound : Z) (E : list (event Payload))
  (c : consumer Payload) (k : consumer_call Payload) :
  0 <= n -> bound < 2 ^ 64 ->
  tracking n bound E c ->
  is_handshake k = false ->
  (forall e, In e (events_of [k]) -> ev_seq e < bound) ->
  next_seq_ c <= next_seq_ (fst (consumer_step max_size c k)).
Proof.
  intros Hn0 HB (T1 & T2 & T3 & T4 & T5 & T6 & T7) Hk Hb.
  destruct k as [off|seq payload|]; [discriminate| |].
  - cbn [events_of] in *. cbn [consumer_step]. unfold handle_event.
    assert (Hseq : seq < bound) by (apply (Hb (mk_event seq payload)); now left).
    destruct (Z.eqb_spec (next_seq_ c) seq) as [Eq|Ne].
    + unfold try_consume_buffer.
      assert (Hw : wrap64 (next_seq_ c + 1) = next_seq_ c + 1)
        by (unfold wrap64; apply Z.mod_small; lia).
      rewrite Hw.
      assert (HF : Forall (fun e => ev_seq e < bound) (buf_ c)).
      { rewrite Forall_forall. intros e He. apply T2. now apply T4. }
      pose proof (try_consume_loop_prefix bound (buf_ c) (next_seq_ c + 1)
                    ltac:(lia) HB HF) as L.
      destruct (try_consume_loop (next_seq_ c + 1) (buf_ c)) as [[n' r] o].
      destruct L as (pre & _ & _ & L3 & _). cbn [fst next_seq_]. lia.
    + destruct (seq >? next_seq_ c); cbn [fst next_seq_]; lia.
  - cbn [consumer_step]. destruct (tick_frame Payload max_size c) as (_ & En & _).
    rewrite En. lia.
Qed.

Lemma run_tracking (n bound : Z) (ks : list (consumer_call Payload)) :
  forall (E : list (event Payload)) (c : consumer Payload),
  0 <= n -> bound < 2 ^ 64 ->
  tracking n bound E c ->
  no_handshake ks = true ->
  (forall e, In e (events_of ks) -> ev_seq e < bound) ->
  let r := consumer_run max_size c ks in
  tracking n bound (E ++ events_of ks) (fst r)
  /\ next_seq_ c <= next_seq_ (fst r)
  /\ delivered (snd r)
     = zseq (next_seq_ c) (Z.to_nat (next_seq_ (fst r) - next_seq_ c))
  /\ (forall e, In e (consumed (snd r)) -> In e (E ++ events_of ks)).
Proof.
  induction ks as [|k ks IH]; intros E c Hn0 HB HT Hn Hb; cbn zeta.
  - cbn [consumer_run events_of fst snd delivered consumed]. rewrite app_nil_r.
    split; [exact HT|]. split; [lia|]. split; [|intros e []].
    replace (Z.to_nat (next_seq_ c - next_seq_ c)) with 0%nat by lia. reflexivity.
  - cbn [no_handshake forallb] in Hn. apply andb_prop in Hn. destruct Hn as [Hk Hn].
    apply negb_true_iff in Hk.
    change (k :: ks) with ([k] ++ ks) in Hb. rewrite events_of_app in Hb.
    assert (Hb1 : forall e, In e (events_of [k]) -> ev_seq e < bound)
      by (intros e He; apply Hb; apply in_or_app; now left).
    assert (Hb2 : forall e, In e (events_of ks) -> ev_seq e < bound)
      by (intros e He; apply Hb; apply in_or_app; now right).
    pose proof (step_tracking n bound E c k Hn0 HB HT Hk Hb1) as S. cbn zeta in S.
    pose proof (step_next_le n bound E c k Hn0 HB HT Hk Hb1) as M.
    cbn [consumer_run].
    destruct (consumer_step max_size c k) as [c1 o1]. cbn [fst snd] in *.
    destruct S as (S1 & S2 & S3).
    specialize (IH (E ++ events_of [k]) c1 Hn0 HB S1 Hn Hb2). cbn zeta in IH.
    destruct (consumer_run max_size c1 ks) as [c2 o2]. cbn [fst snd] in *.
    destruct IH as (I1 & I2 & I3 & I4).
    change (k :: ks) with ([k] ++ ks). rewrite events_of_app, app_assoc.
    split; [|split; [|split]].
    + exact I1.
    + lia.
    + rewrite delivered_app, S2, I3.
      replace (Z.to_nat (next_seq_ c2 - next_seq_ c))
        with (Z.to_nat (next_seq_ c1 - next_seq_ c)
              + Z.to_nat (next_seq_ c2 - next_seq_ c1))%nat by lia.
      rewrite zseq_app. do 2 f_equal. lia.
    + intros e He. rewrite consumed_app in He. apply in_app_or in He.
      destruct He as [He|He]; [|now apply I4].
      apply in_or_app. left. now apply S3.
Qed.

Lemma run_delivers_in_order
  (c : consumer Payload) (ks : list (consumer_call Payload)) (k : nat) :
  0 <= next_seq_ c ->
  next_seq_ c + Z.of_nat k < 2 ^ 64 ->
  ascending (buf_ c) ->
  Forall (fun e => next_seq_ c < ev_seq e) (buf_ c) ->
  no_handshake ks = true ->
  (forall e, In e (buf_ c ++ events_of ks) ->
     ev_seq e < next_seq_ c + Z.of_nat k) ->
  (forall s, next_seq_ c <= s < next_seq_ c + Z.of_nat k ->
     In s (map ev_seq (buf_ c ++ events_of ks))) ->
  let r := consumer_run max_size c ks in
  next_seq_ (fst r) = next_seq_ c + Z.of_nat k
  /\ buf_ (fst r) = []
  /\ delivered (snd r) = zseq (next_seq_ c) k
  /\ (forall e, In e (consumed (snd r)) -> In e (buf_ c ++ events_of ks)).
Proof.
  intros H0 HB Hasc Habove Hn Hbound Hcover. cbn zeta.
  set (n := next_seq_ c) in *. set (bound := n + Z.of_nat k) in *.
  assert (HT : tracking n bound (buf_ c) c).
  { unfold tracking. fold n. repeat split.
    - lia.
    - intros e He. apply Hbound. apply in_or_app. now left.
    - intros e He. right. now apply in_map.
    - auto.
    - intros s Hs. lia.
    - exact Hasc.
    - exact Habove. }
  assert (Hb : forall e, In e (events_of ks) -> ev_seq e < bound)
    by (intros e He; apply Hbound; apply in_or_app; now right).
  pose proof (run_tracking n bound ks (buf_ c) c H0 HB HT Hn Hb) as R. cbn zeta in R.
  destruct (consumer_run max_size c ks) as [c' o]. cbn [fst snd] in *.
  destruct R as ((T1 & T2 & T3 & T4 & T5 & T6 & T7) & Hle & Hd & Hc).
  rewrite Forall_forall in T7. fold n in Hle, Hd.
  assert (Hge : bound <= next_seq_ c').
  { destruct (Z.lt_ge_cases (next_seq_ c') bound) as [Hlt|]; [|assumption].
    exfalso. assert (Hin : In (next_seq_ c') (map ev_seq (buf_ c ++ events_of ks)))
      by (apply Hcover; lia).
    apply in_map_iff in Hin. destruct Hin as (e & Ee & He).
    destruct (T3 e He) as [Hlt'|Hin]; [lia|].
    apply in_map_iff in Hin. destruct Hin as (e' & Ee' & He').
    specialize (T7 e' He'). lia. }
  assert (Hle' : next_seq_ c' <= bound).
  { destruct (Z.lt_ge_cases bound (next_seq_ c')) as [Hlt|]; [|lia].
    exfalso. assert (Hin : In (next_seq_ c' - 1) (map ev_seq (buf_ c ++ events_of ks)))
      by (apply T5; lia).
    apply in_map_iff in Hin. destruct Hin as (e & Ee & He).
    specialize (T2 e He). lia. }
  assert (Hnext : next_seq_ c' = bound) by lia.
  split; [|split; [|split]].
  - exact Hnext.
  - destruct (buf_ c') as [|e b] eqn:Eb; [reflexivity|]. exfalso.
    assert (He : In e (e :: b)) by now left.
    pose proof (T7 e He) as H1. pose proof (T2 e (T4 e He)) as H2. lia.
  - rewrite Hd, Hnext. f_equal. unfold bound. lia.
  - exact Hc.
Qed.

(** X7: reordering and duplication are absorbed.  Take a consumer whose
    reorder buffer is strictly ascending with every entry above [next_seq_],
    and let it handle events and ticks (no handshake) such that the buffered
    and the received events together carry every sequence number from
    [next_seq_] to [next_seq_ + k - 1] and none beyond.  Whatever the order
    of arrival and however often an event is repeated, the consumer then
    has delivered exactly these [k] numbers, each once and in ascending
    order, every delivery being one of the buffered or received events; its
    buffer is empty and [next_seq_] has advanced by [k]. *)
Theorem delivery_in_order_exactly_once
  (c : consumer Payload) (ks : list (consumer_call Payload)) (k : nat) :
  0 <= next_seq_ c ->
  next_seq_ c + Z.of_nat k < 2 ^ 64 ->
  ascending (buf_ c) ->
  Forall (fun e => next_seq_ c < ev_seq e) (buf_ c) ->
  no_handshake ks = true ->
  (forall e, In e (buf_ c ++ events_of ks) ->
     ev_seq e < next_seq_ c + Z.of_nat k) ->
  (forall s, next_seq_ c <= s < next_seq_ c + Z.of_nat k ->
     In s (map ev_seq (buf_ c ++ events_of ks))) ->
  let r := consumer_run max_size c ks in
  next_seq_ (fst r) = next_seq_ c + Z.of_nat k
  /\ buf_ (fst r) = []
  /\ delivered (snd r) = zseq (next_seq_ c) k
  /\ (forall e, In e (consumed (snd r)) -> In e (buf_ c ++ events_of ks)).
Proof. exact (run_delivers_in_order c ks k). Qed.

Lemma sorted_le_last (l : list Z) :
  StronglySorted Z.lt l -> forall x, In x l -> x <= last l 0.
Proof.
  induction 1 as [|a l Hs IH Hf]; intros x Hx; [contradiction|].
  destruct l as [|b l]; [destruct Hx as [<-|[]]; cbn; lia|].
  change (last (a :: b :: l) 0) with (last (b :: l) 0).
  destruct Hx as [<-|Hx]; [|now apply IH].
  rewrite Forall_forall in Hf.
  assert (Hb : a < b) by (apply Hf; now left).
  specialize (IH b (or_introl eq_refl)). lia.
Qed.

(** X8: a nack repairs the gap.  In a consumer whose non-empty reorder
    buffer is strictly ascending with every entry above [next_seq_], if the
    events then received (in any order, possibly repeated, none beyond the
    last buffered number) include every sequence number of
    [missing_seqs] -- the list a nack carries -- the consumer delivers every
    number from [next_seq_] to the last buffered one, in order, and its
    buffer is empty. *)
Theorem nack_answer_drains_buffer
  (c : consumer Payload) (ks : list (consumer_call Payload)) :
  let last_ := last (map ev_seq (buf_ c)) 0 in
  0 <= next_seq_ c ->
  last_ + 1 < 2 ^ 64 ->
  buf_ c <> [] ->
  ascending (buf_ c) ->
  Forall (fun e => next_seq_ c < ev_seq e) (buf_ c) ->
  no_handshake ks = true ->
  (forall e, In e (events_of ks) -> ev_seq e <= last_) ->
  (forall s, In s (missing_seqs (next_seq_ c) last_ (buf_ c)) ->
     In s (map ev_seq (events_of ks))) ->
  let r := consumer_run max_size c ks in
  next_seq_ (fst r) = last_ + 1
  /\ buf_ (fst r) = []
  /\ delivered (snd r)
     = zseq (next_seq_ c) (Z.to_nat (last_ + 1 - next_seq_ c)).
Proof.
  intros last_ H0 HB Hne Hasc Habove Hn Hle Hmiss.
  assert (HL : In last_ (map ev_seq (buf_ c))).
  { apply last_In. destruct (buf_ c); [congruence | discriminate]. }
  assert (Hlast : next_seq_ c < last_).
  { apply in_map_iff in HL. destruct HL as (e & <- & He).
    rewrite Forall_forall in Habove. now apply Habove. }
  pose proof (run_delivers_in_order c ks
                (Z.to_nat (last_ + 1 - next_seq_ c)) H0 ltac:(lia) Hasc Habove Hn) as D.
  rewrite Z2Nat.id in D by lia.
  replace (next_seq_ c + (last_ + 1 - next_seq_ c)) with (last_ + 1) in D by lia.
  destruct D as (D1 & D2 & D3 & _); [| |auto].
  - intros e He. apply in_app_or in He. destruct He as [He|He].
    + assert (ev_seq e <= last_)
        by (apply sorted_le_last; [exact Hasc | now apply in_map]).
      lia.
    + specialize (Hle e He). lia.
  - intros s Hs. rewrite map_app. apply in_or_app.
    destruct (existsb (Z.eqb s) (map ev_seq (buf_ c))) eqn:Ex.
    + left. apply existsb_exists in Ex. destruct Ex as (y & Hy & Ey).
      apply Z.eqb_eq in Ey. now subst.
    + right. apply Hmiss. unfold missing_seqs. apply filter_In. split.
      * apply zseq_In_iff.
        assert (s <> last_).
        { intros ->. assert (Ht : existsb (Z.eqb last_) (map ev_seq (buf_ c)) = true).
          { apply existsb_exists. exists last_. split; [exact HL | apply Z.eqb_refl]. }
          congruence. }
        lia.
      * now rewrite Ex.
Qed.

Lemma insert_event_present (seq : Z) (payload : Payload) (b : list (event Payload)) :
  ascending b -> In seq (map ev_seq b) -> insert_event seq payload b = b.
Proof.
  unfold ascending. induction b as [|x b IH]; intros Hs Hin; [contradiction|].
  cbn [map] in Hs. inversion Hs as [|? ? Hs' Hf]; subst.
  cbn [insert_event]. destruct (Z.geb_spec (ev_seq x) seq) as [Hge|Hlt].
  - destruct (Z.eqb_spec (ev_seq x) seq) as [_|Hne]; [reflexivity|]. exfalso.
    destruct Hin as [Hin|Hin]; [contradiction|].
    rewrite Forall_forall in Hf. specialize (Hf seq Hin). lia.
  - f_equal. apply IH; [exact Hs'|]. destruct Hin as [Hin|Hin]; [lia | exact Hin].
Qed.

(** X9: an event that is already in the (strictly ascending) reorder buffer
    is dropped when it arrives again: state and buffered payload stay as
    they are and nothing is delivered or sent. *)
Theorem buffered_event_not_stored_twice
  (c : consumer Payload) (seq : Z) (payload : Payload) :
  ascending (buf_ c) ->
  In seq (map ev_seq (buf_ c)) ->
  next_seq_ c < seq ->
  handle_event c seq payload = (c, []).
Proof.
  intros Hs Hin Hlt. unfold handle_event.
  destruct (Z.eqb_spec (next_seq_ c) seq); [lia|].
  destruct (Z.gtb_spec seq (next_seq_ c)); [|lia].
  rewrite insert_event_present by assumption. now destruct c.
Qed.


End ConsumerProps.

(** *** Concrete runs: payloads are natural numbers *)

(** Events 1 and 0 arrive out of order, event 1 twice: both are delivered
    once, in order. *)
Lemma delivery_in_order_exactly_once_witness :
  let ks := [call_event 1 11%nat; call_event 1 11%nat; call_event 0 10%nat] in
  let r := consumer_run vector_max_size consumer_init ks in
  no_handshake ks = true
  /\ next_seq_ (fst r) = 2
  /\ buf_ (fst r) = []
  /\ delivered (snd r) = [0; 1].
Proof.
  cbv zeta. split; [reflexivity|].
  destruct (@delivery_in_order_exactly_once nat vector_max_size consumer_init
              [call_event 1 11%nat; call_event 1 11%nat; call_event 0 10%nat] 2)
    as (R1 & R2 & R3 & _).
  - cbn. lia.
  - cbn. lia.
  - constructor.
  - constructor.
  - reflexivity.
  - cbn. intros e [<-|[<-|[<-|[]]]]; cbn; lia.
  - cbn. intros s Hs. assert (s = 0 \/ s = 1) as [->| ->] by lia; auto.
  - split; [exact R1|]. split; [exact R2|]. exact R3.
Defined.

(** Event 2 is buffered; the consumer's nack lists 0 and 1; once both
    arrive the buffer is drained and 0, 1, 2 are delivered. *)
Lemma nack_answer_drains_buffer_witness :
  let c := fst (consumer_run vector_max_size consumer_init [call_event 2 12%nat]) in
  let ks := [call_event 0 10%nat; call_event 1 11%nat] in
  let r := consumer_run vector_max_size c ks in
  map ev_seq (buf_ c) = [2]
  /\ missing_seqs (next_seq_ c) 2 (buf_ c) = [0; 1]
  /\ next_seq_ (fst r) = 3
  /\ buf_ (fst r) = []
  /\ delivered (snd r) = [0; 1; 2].
Proof.
  cbv zeta. split; [reflexivity|]. split; [reflexivity|].
  destruct (@nack_answer_drains_buffer nat vector_max_size
              (fst (consumer_run vector_max_size consumer_init [call_event 2 12%nat]))
              [call_event 0 10%nat; call_event 1 11%nat])
    as (R1 & R2 & R3).
  - cbn. lia.
  - cbn. lia.
  - discriminate.
  - repeat constructor.
  - repeat constructor.
  - reflexivity.
  - cbn. intros e [<-|[<-|[]]]; cbn; lia.
  - cbn. intros s [<-|[<-|[]]]; auto.
  - split; [exact R1|]. split; [exact R2|]. exact R3.
Defined.

(** Event 2 is buffered; a second copy changes nothing and sends nothing. *)
Lemma buffered_event_not_stored_twice_witness :
  let c := fst (consumer_run vector_max_size consumer_init [call_event 2 12%nat]) in
  map ev_seq (buf_ c) = [2]
  /\ next_seq_ c < 2
  /\ handle_event c 2 13%nat = (c, []).
Proof.
  cbv zeta. split; [reflexivity|]. split; [reflexivity|].
  apply (@buffered_event_not_stored_twice nat
           (fst (consumer_run vector_max_size consumer_init [call_event 2 12%nat]))
           2 13%nat).
  - repeat constructor.
  - now left.
  - reflexivity.
Defined.


End ConsumerProps.

(** ** Producer and consumer together *)

Module ChannelComposition.

Import Channel.

Section Composition.

Variable Handle : Type.
Variable Handle_eqb : Handle -> Handle -> bool.
Variable Payload : Type.
Variable max_size : Z.

Lemma produce_run_events (cs : list Payload) :
  forall p : Producer.producer Handle Payload,
  0 <= Producer.seq_ p ->
  Producer.seq_ p + Z.of_nat (length cs) < 2 ^ 64 ->
  let P := Producer.produced
             (snd (Producer.producer_run Handle_eqb p
                     (map (fun c => Producer.call_produce c) cs))) in
  map ev_seq P = zseq (Producer.seq_ p + 1) (length cs)
  /\ map content P = cs.
Proof.
  induction cs as [|c cs IH]; intros p H0 Hlt; cbn zeta; [now cbn|].
  cbn [map Producer.producer_run Producer.producer_step length] in *.
  unfold Producer.produce at 1 2.
  assert (Hw : wrap64 (Producer.seq_ p + 1) = Producer.seq_ p + 1)
    by (unfold wrap64; apply Z.mod_small; lia).
  rewrite Hw.
  specialize (IH (Producer.mk_producer (Producer.seq_ p + 1)
                    (Producer.buf_ p ++ [mk_event (Producer.seq_ p + 1) c])
                    (Producer.paths_ p))).
  cbn [Producer.seq_] in IH. specialize (IH ltac:(lia) ltac:(lia)). cbn zeta in IH.
  destruct (Producer.producer_run Handle_eqb _ _) as [p2 o2].
  cbn [snd app Producer.produced map ev_seq content zseq] in *.
  destruct IH as [I1 I2]. now rewrite I1, I2.
Qed.

(** X10: the handshake's offset is skipped.  A producer adds a new consumer
    and then produces events; the handshake it sent carries [seq_ + 1], the
    sequence number of the first of these events.  A fresh consumer that
    handles this handshake first and then all of the produced events, in any
    order and possibly repeated, delivers every one of them except the
    first, in order, and ends with an empty buffer: the event numbered like
    the handshake's offset is never delivered. *)
Theorem event_at_handshake_offset_is_skipped
  (p : Producer.producer Handle Payload) (h : Handle) (cs : list Payload) :
  Producer.find_path Handle_eqb h (Producer.paths_ p) = None ->
  0 <= Producer.seq_ p ->
  Producer.seq_ p + Z.of_nat (length cs) + 2 < 2 ^ 64 ->
  let off := Producer.seq_ p + 1 in
  let p1 := fst (fst (Producer.add Handle_eqb p h)) in
  let P := Producer.produced
             (snd (Producer.producer_run Handle_eqb p1
                     (map (fun c => Producer.call_produce c) cs))) in
  snd (fst (Producer.add Handle_eqb p h)) = [Producer.send_handshake Payload h off]
  /\ map ev_seq P = zseq off (length cs)
  /\ map content P = cs
  /\ forall ks,
       Consumer.no_handshake ks = true ->
       (forall e, In e (ConsumerProps.events_of ks) <-> In e P) ->
       let r := Consumer.consumer_run max_size Consumer.consumer_init
                  (Consumer.call_handshake off :: ks) in
       Consumer.delivered (snd r) = zseq (off + 1) (length cs - 1)
       /\ Consumer.buf_ (fst r) = []
       /\ (forall e, In e (ConsumerProps.consumed (snd r)) ->
             In e P /\ ev_seq e <> off).
Proof.
  intros Hnew H0 Hlt off p1 P.
  assert (Hadd : Producer.add Handle_eqb p h
                 = (Producer.mk_producer (Producer.seq_ p) (Producer.buf_ p)
                      (Producer.paths_ p
                       ++ [Producer.mk_path h off (Producer.seq_ p)]),
                    [Producer.send_handshake Payload h off], None)).
  { unfold Producer.add. rewrite Hnew. unfold off, wrap64.
    rewrite Z.mod_small by lia. reflexivity. }
  assert (Hp1 : Producer.seq_ p1 = Producer.seq_ p)
    by (unfold p1; now rewrite Hadd).
  destruct (produce_run_events cs p1 ltac:(lia) ltac:(lia)) as [HP1 HP2].
  fold P in HP1, HP2. rewrite Hp1 in HP1. fold off in HP1.
  split; [now rewrite Hadd|]. split; [exact HP1|]. split; [exact HP2|].
  intros ks Hn Hsame. cbn zeta.
  assert (Hw : wrap64 (off + 1) = off + 1)
    by (unfold wrap64; apply Z.mod_small; unfold off; lia).
  set (c1 := Consumer.mk_consumer (Payload:=Payload) (off + 1) [] 0 0 0 1 1).
  (* the handshake: [next_seq_] becomes [off + 1], the buffer is empty *)
  assert (Hh : Consumer.handle_handshake (Consumer.consumer_init (Payload:=Payload)) off
               = (c1, [])).
  { unfold Consumer.handle_handshake, Consumer.try_consume_buffer,
      Consumer.consumer_init.
    cbn [Consumer.next_seq_ Consumer.buf_ Consumer.try_consume_loop Consumer.tick_
         Consumer.last_tick_seq_ Consumer.idle_ticks_ Consumer.ack_interval_
         Consumer.nack_timeout_].
    destruct (Z.geb_spec off 0) as [_|]; [|unfold off in *; lia].
    now rewrite Hw. }
  cbn [Consumer.consumer_run Consumer.consumer_step]. rewrite Hh.
  pose proof (ConsumerProps.run_delivers_in_order Payload max_size c1 ks
                (length cs - 1)) as D.
  cbn [Consumer.next_seq_ Consumer.buf_ c1 app] in D.
  assert (HinP : forall e, In e P -> off <= ev_seq e < off + Z.of_nat (length cs)).
  { intros e He. apply (zseq_In (ev_seq e) off (length cs)). rewrite <- HP1.
    now apply in_map. }
  assert (Hbound : forall e, In e (ConsumerProps.events_of ks) ->
                   ev_seq e < off + 1 + Z.of_nat (length cs - 1)).
  { intros e He. apply Hsame in He. specialize (HinP e He). lia. }
  assert (Hcover : forall s, off + 1 <= s < off + 1 + Z.of_nat (length cs - 1) ->
                   In s (map ev_seq (ConsumerProps.events_of ks))).
  { intros s Hs.
    assert (Hin : In s (map ev_seq P)).
    { rewrite HP1. apply ConsumerProps.zseq_In_iff. lia. }
    apply in_map_iff in Hin. destruct Hin as (e & <- & He).
    apply in_map. now apply Hsame. }
  specialize (D ltac:(unfold off; lia) ltac:(unfold off; lia)
                (SSorted_nil _) (Forall_nil _) Hn Hbound Hcover).
  cbn zeta in D.
  destruct (Consumer.consumer_run max_size c1 ks) as [c2 o2].
  cbn [fst snd app] in *. destruct D as (D1 & D2 & D3 & D4).
  split; [exact D3|]. split; [exact D2|].
  intros e He. split; [apply Hsame; now apply D4|].
  assert (Hs : In (ev_seq e) (Consumer.delivered o2)).
  { rewrite ConsumerProps.delivered_consumed. now apply in_map. }
  rewrite D3 in Hs. apply zseq_In in Hs. lia.
Qed.

End Composition.

(** A fresh producer gets consumer 1 and produces 7 and 8: the handshake
    carries offset 1, the events are numbered 1 and 2, and a consumer that
    receives the handshake and both events delivers only event 2. *)
Lemma event_at_handshake_offset_is_skipped_witness :
  let p := Producer.producer_init nat nat in
  let ks := [Consumer.call_event 1 7%nat; Consumer.call_event 2 8%nat] in
  let r := Consumer.consumer_run Consumer.vector_max_size Consumer.consumer_init
             (Consumer.call_handshake 1 :: ks) in
  Producer.find_path Nat.eqb 1%nat (Producer.paths_ p) = None
  /\ snd (fst (Producer.add Nat.eqb p 1%nat)) = [Producer.send_handshake nat 1%nat 1]
  /\ Consumer.delivered (snd r) = [2]
  /\ Consumer.buf_ (fst r) = [].
Proof.
  cbv zeta.
  destruct (@event_at_handshake_offset_is_skipped nat Nat.eqb nat
              Consumer.vector_max_size (Producer.producer_init nat nat) 1%nat
              [7%nat; 8%nat])
    as (R1 & _ & _ & R4).
  - reflexivity.
  - cbn. lia.
  - cbn. lia.
  - split; [reflexivity|]. split; [exact R1|].
    destruct (R4 [Consumer.call_event 1 7%nat; Consumer.call_event 2 8%nat])
      as (D1 & D2 & _).
    + reflexivity.
    + intros e. reflexivity.
    + split; [exact D1 | exact D2].
Defined.

End ChannelComposition.

(** ** Further properties of the master *)

Module MasterProps.

Import Master.

Set Implicit Arguments.

Section MasterProps.

Variable B : Type.
Variable ops : abstract_backend B.

(** The commands a clone handles: [put], [erase], [expire], [clear] and
    [snapshot_sync] ([set] reaches a clone directly, not by broadcast). *)
Definition clone_command (c : command) : bool :=
  match c with
  | put_command _ _ _ _ | erase_command _ _ | expire_command _ _
  | clear_command _ | snapshot_sync_command _ => true
  | _ => false
  end.

Definition broadcasts_clone_command (e : effect) : Prop :=
  match e with
  | broadcast_cmd_to_clones c => clone_command c = true
  | _ => True
  end.

Definition is_broadcast (e : effect) : bool :=
  match e with broadcast_cmd_to_clones _ => true | _ => false end.

Definition is_store_event (e : effect) : bool :=
  match e with
  | emit_insert_event _ _ _ _ | emit_update_event _ _ _ _ _
  | emit_erase_event _ _ | emit_expire_event _ _ => true
  | _ => false
  end.

Definition is_die (e : effect) : bool :=
  match e with die _ => true | _ => false end.

(** From the first broadcast on there is neither a store event nor another
    broadcast. *)
Fixpoint events_before_broadcast (es : list effect) : bool :=
  match es with
  | [] => true
  | e :: es' =>
      if is_broadcast e
      then forallb (fun x => negb (is_store_event x) && negb (is_broadcast x)) es'
      else events_before_broadcast es'
  end.

(** What the master does with one input: a command, or the expiry timer of a
    key. *)
Inductive input : Type :=
| in_command (cmd : command)
| in_expire (key : data).

Definition handle (now : timestamp) (self : entity_id) (st : master_state B)
  (i : input) : master_state B * list effect :=
  match i with
  | in_command cmd => command_ ops now st cmd
  | in_expire key => expire ops now self st key
  end.

Unset Implicit Arguments.

Lemma remind_if_clone (e : option timespan) (k : data) :
  Forall broadcasts_clone_command (remind_if e k).
Proof. destruct e; repeat constructor. Qed.

Lemma erase_events_clone (p : entity_id) (ks : list data) :
  Forall broadcasts_clone_command (map (fun k => emit_erase_event k p) ks).
Proof. rewrite Forall_map. rewrite Forall_forall. intros; exact I. Qed.

(** X11: whatever the input and however the backend answers, every command
    the master broadcasts to its clones is one a clone handles: a [put], an
    [erase], an [expire], a [clear] or a [snapshot_sync]; never an [add], a
    [subtract], a [put_unique], a [snapshot] or a [set]. *)
Theorem master_broadcasts_clone_commands
  (now : timestamp) (self : entity_id) (st : master_state B) (i : input) :
  Forall broadcasts_clone_command (snd (handle now self st i)).
Proof.
  destruct i as [cmd|key]; cbn [handle].
  - destruct cmd; cbn [command_]; try constructor.
    + unfold on_put. destruct (backend_put ops _ _ _ _) as [[|] b']; [|constructor].
      cbn [snd]. apply Forall_app. split; [apply remind_if_clone|].
      destruct (backend_get ops _ _); repeat constructor.
    + unfold on_put_unique. destruct (exists_ ops st key); [repeat constructor|].
      destruct (backend_put ops _ _ _ _) as [[|] b']; [|repeat constructor].
      cbn [snd app]. constructor; [exact I|].
      apply Forall_app. split; [apply remind_if_clone | repeat constructor].
    + unfold on_erase. destruct (backend_erase ops _ _) as [[|] b']; repeat constructor.
    + unfold on_add. destruct (backend_add ops _ _ _ _ _) as [[|] b']; [|constructor].
      destruct (backend_get ops b' key); [|constructor].
      cbn [snd]. apply Forall_app. split; [apply remind_if_clone|].
      destruct (backend_get ops _ _); repeat constructor.
    + unfold on_subtract. destruct (backend_get ops _ _); [|constructor].
      destruct (backend_subtract ops _ _ _ _) as [[|] b']; [|constructor].
      destruct (backend_get ops b' key); [|constructor].
      cbn [snd]. apply Forall_app. split; [apply remind_if_clone | repeat constructor].
    + unfold on_snapshot. destruct remote_core, remote_clone; try constructor.
      destruct (backend_snapshot ops _); repeat constructor.
    + unfold on_clear. destruct (backend_keys ops _) as [keys_res|]; [|constructor].
      destruct (backend_clear ops _) as [[|] b']; cbn [snd];
        apply Forall_app; (split; [|repeat constructor]);
        destruct keys_res; try constructor; apply erase_events_clone.
  - unfold expire. destruct (backend_expire ops _ _ _) as [[[|]|] b']; repeat constructor.
Qed.

(** X12: only a [snapshot] command changes the clone registry, and a
    [snapshot] command never changes the backend; it registers the clone
    under the remote core unless that core is registered already. *)
Theorem only_snapshot_touches_clone_registry
  (now : timestamp) (self : entity_id) (st : master_state B) (i : input) :
  match i with
  | in_command (snapshot_command (Some core) (Some clone)) =>
      backend (fst (handle now self st i)) = backend st
      /\ (clones (fst (handle now self st i)) = clones st
          \/ clones (fst (handle now self st i)) = clones st ++ [(core, clone)])
  | _ => clones (fst (handle now self st i)) = clones st
  end.
Proof.
  destruct i as [cmd|key]; cbn [handle].
  - destruct cmd; cbn [command_]; try reflexivity.
    + unfold on_put. now destruct (backend_put ops _ _ _ _) as [[|] b'].
    + unfold on_put_unique. destruct (exists_ ops st key); [reflexivity|].
      now destruct (backend_put ops _ _ _ _) as [[|] b'].
    + unfold on_erase. now destruct (backend_erase ops _ _) as [[|] b'].
    + unfold on_add. destruct (backend_add ops _ _ _ _ _) as [[|] b']; [|reflexivity].
      now destruct (backend_get ops b' key).
    + unfold on_subtract. destruct (backend_get ops _ _); [|reflexivity].
      destruct (backend_subtract ops _ _ _ _) as [[|] b']; [|reflexivity].
      now destruct (backend_get ops b' key).
    + unfold on_snapshot. destruct remote_core as [core|]; [|reflexivity].
      destruct remote_clone as [clone|]; [|reflexivity].
      destruct (backend_snapshot ops _); cbn [fst backend clones]; [|auto].
      split; [reflexivity|].
      destruct (existsb (Z.eqb core) (map fst (clones st))); auto.
    + unfold on_clear. destruct (backend_keys ops _); [|reflexivity].
      now destruct (backend_clear ops _) as [[|] b'].
  - unfold expire. now destruct (backend_expire ops _ _ _) as [[[|]|] b'].
Qed.

Lemma events_before_broadcast_app (l r : list effect) :
  forallb (fun x => negb (is_broadcast x)) l = true ->
  events_before_broadcast (l ++ r) = events_before_broadcast r.
Proof.
  induction l as [|x l IH]; intros H; [reflexivity|].
  cbn [forallb] in H. apply andb_prop in H. destruct H as [Hx Hl].
  cbn [app events_before_broadcast]. apply negb_true_iff in Hx. rewrite Hx.
  now apply IH.
Qed.

Lemma remind_if_no_broadcast (e : option timespan) (k : data) :
  forallb (fun x => negb (is_broadcast x)) (remind_if e k) = true.
Proof. now destruct e. Qed.

Lemma erase_events_no_broadcast (p : entity_id) (ks : list data) :
  forallb (fun x => negb (is_broadcast x))
          (map (fun k => emit_erase_event k p) ks) = true.
Proof. induction ks; [reflexivity | exact IHks]. Qed.

Lemma existsb_app_r {A : Type} (f : A -> bool) (l r : list A) :
  existsb f r = true -> existsb f (l ++ r) = true.
Proof. intros H. rewrite existsb_app, H. apply orb_true_r. Qed.

(** X13: for every input and every answer of the backend, the master
    broadcasts at most one command, emits its store events before that
    broadcast and none after it; and unless it dies, it broadcasts whenever
    it has emitted a store event. *)
Theorem store_events_precede_single_broadcast
  (now : timestamp) (self : entity_id) (st : master_state B) (i : input) :
  let es := snd (handle now self st i) in
  events_before_broadcast es = true
  /\ (existsb is_store_event es = true -> existsb is_die es = false ->
      existsb is_broadcast es = true).
Proof.
  cbn zeta. destruct i as [cmd|key]; cbn [handle].
  - destruct cmd; cbn [command_]; try (split; [reflexivity | discriminate]).
    + unfold on_put. destruct (backend_put ops _ _ _ _) as [[|] b'];
        [|split; [reflexivity | discriminate]].
      cbn [snd]. split.
      * rewrite events_before_broadcast_app by apply remind_if_no_broadcast.
        now destruct (backend_get ops _ _).
      * intros _ _. apply existsb_app_r. cbn. apply orb_true_r.
    + unfold on_put_unique. destruct (exists_ ops st key);
        [split; [reflexivity | discriminate]|].
      destruct (backend_put ops _ _ _ _) as [[|] b'];
        [|split; [reflexivity | discriminate]].
      cbn [snd app events_before_broadcast is_broadcast]. split.
      * now rewrite events_before_broadcast_app by apply remind_if_no_broadcast.
      * intros _ _. cbn [existsb is_broadcast orb]. apply existsb_app_r. reflexivity.
    + unfold on_erase. destruct (backend_erase ops _ _) as [[|] b'];
        (split; [reflexivity | (discriminate || reflexivity)]).
    + unfold on_add. destruct (backend_add ops _ _ _ _ _) as [[|] b'];
        [|split; [reflexivity | discriminate]].
      destruct (backend_get ops b' key); [|split; [reflexivity | discriminate]].
      cbn [snd]. split.
      * rewrite events_before_broadcast_app by apply remind_if_no_broadcast.
        now destruct (backend_get ops _ _).
      * intros _ _. apply existsb_app_r. cbn. apply orb_true_r.
    + unfold on_subtract.
      destruct (backend_get ops _ _); [|split; [reflexivity | discriminate]].
      destruct (backend_subtract ops _ _ _ _) as [[|] b'];
        [|split; [reflexivity | discriminate]].
      destruct (backend_get ops b' key); [|split; [reflexivity | discriminate]].
      cbn [snd]. split.
      * now rewrite events_before_broadcast_app by apply remind_if_no_broadcast.
      * intros _ _. apply existsb_app_r. reflexivity.
    + unfold on_snapshot. destruct remote_core, remote_clone;
        try (split; [reflexivity | discriminate]).
      destruct (backend_snapshot ops _); (split; [reflexivity | discriminate]).
    + unfold on_clear.
      destruct (backend_keys ops _) as [keys_res|];
        [|split; [reflexivity | discriminate]].
      assert (Hnb : forallb (fun x => negb (is_broadcast x))
                      match keys_res with
                      | d_vector keys => map (fun k => emit_erase_event k publisher) keys
                      | d_set keys => map (fun k => emit_erase_event k publisher) keys
                      | _ => []
                      end = true).
      { destruct keys_res; try reflexivity; apply erase_events_no_broadcast. }
      destruct (backend_clear ops _) as [[|] b']; cbn [snd]; split.
      * now rewrite events_before_broadcast_app by exact Hnb.
      * intros _ _. apply existsb_app_r. reflexivity.
      * now rewrite events_before_broadcast_app by exact Hnb.
      * intros _ Hd. rewrite existsb_app in Hd. cbn in Hd.
        rewrite orb_true_r in Hd. discriminate.
  - unfold expire. destruct (backend_expire ops _ _ _) as [[[|]|] b'];
      (split; [reflexivity | (discriminate || reflexivity)]).
Qed.

End MasterProps.

End MasterProps.

(** ** Further properties of addresses *)

Module AddressProps.

Import Address.

(** [v4_mapped_prefix]. *)
Definition v4_mapped_prefix : list Z := [0; 0; 0; 0; 0; 0; 0; 0; 0; 0; 255; 255].

(** [address::family] and [address::byte_order]. *)
Inductive family : Type := ipv4 | ipv6.
Inductive byte_order : Type := host | network.

Definition is_host (o : byte_order) : bool :=
  match o with host => true | network => false end.

(** The sixteen bytes of the 128-bit mask whose upper [n] bits are set. *)
Definition prefix_mask (n : Z) : list Z :=
  map (fun i => let lo := 8 * Z.of_nat i in
                if lo + 8 <=? n then 255
                else if n <=? lo then 0
                else 256 - 2 ^ (8 - (n - lo)))
      (seq 0 16).

Fixpoint zlist_eqb (a b : list Z) : bool :=
  match a, b with
  | [], [] => true
  | x :: a', y :: b' => (x =? y) && zlist_eqb a' b'
  | _, _ => false
  end.

Section AddressProps.

Variable is_little_endian : bool.

(** [to_array]: [bytes] points to the words [ws] (one word is read for
    [ipv4], four for [ipv6]; [None] when [ws] has fewer).  The byte-wise
    reversal for host order is compiled on little-endian hosts only. *)
Definition to_array (ws : list Z) (fam : family) (order : byte_order)
  : option address :=
  match fam with
  | ipv4 =>
      match ws with
      | w :: _ =>
          Some (v4_mapped_prefix
                ++ (if is_little_endian && is_host order
                    then rev (store32 is_little_endian w)
                    else store32 is_little_endian w))
      | [] => None
      end
  | ipv6 =>
      match ws with
      | w0 :: w1 :: w2 :: w3 :: _ =>
          Some (if is_little_endian && is_host order
                then flat_map (fun w => rev (store32 is_little_endian w))
                              [w0; w1; w2; w3]
                else store_words is_little_endian [w0; w1; w2; w3])
      | _ => None
      end
  end.

Lemma zlist_eqb_eq (a b : list Z) : zlist_eqb a b = true -> a = b.
Proof.
  revert b; induction a as [|x a IH]; intros [|y b] H; try discriminate; [reflexivity|].
  cbn [zlist_eqb] in H. apply andb_prop in H. destruct H as [H1 H2].
  apply Z.eqb_eq in H1. subst. f_equal. now apply IH.
Qed.

Lemma byte_of_land (w m k : Z) :
  0 <= k ->
  (Z.land w m / 2 ^ k) mod 2 ^ 8
  = Z.land ((w / 2 ^ k) mod 2 ^ 8) ((m / 2 ^ k) mod 2 ^ 8).
Proof.
  intros Hk. rewrite <- !Z.shiftr_div_pow2, <- !Z.land_ones by lia.
  rewrite Z.shiftr_land. apply Z.bits_inj'. intros i Hi.
  rewrite !Z.land_spec.
  destruct (Z.testbit (Z.shiftr w k) i), (Z.testbit (Z.shiftr m k) i),
           (Z.testbit (Z.ones 8) i); reflexivity.
Qed.

Lemma store32_land (w m : Z) :
  store32 is_little_endian (Z.land w m)
  = and_words (store32 is_little_endian w) (store32 is_little_endian m).
Proof.
  pose proof (byte_of_land w m 0 ltac:(lia)) as B0.
  pose proof (byte_of_land w m 8 ltac:(lia)) as B1.
  pose proof (byte_of_land w m 16 ltac:(lia)) as B2.
  pose proof (byte_of_land w m 24 ltac:(lia)) as B3.
  change (2 ^ 0) with 1 in B0. rewrite !Z.div_1_r in B0.
  unfold store32. destruct is_little_endian; cbn [and_words];
    now rewrite B0, B1, B2, B3.
Qed.

Lemma and_words_app (l1 l2 r1 r2 : list Z) :
  length l1 = length r1 ->
  and_words (l1 ++ l2) (r1 ++ r2) = and_words l1 r1 ++ and_words l2 r2.
Proof.
  revert r1; induction l1 as [|x l1 IH]; intros [|y r1] H; try discriminate;
    [reflexivity|].
  cbn [app and_words]. f_equal. apply IH. now injection H.
Qed.

Lemma store32_length (w : Z) : length (store32 is_little_endian w) = 4%nat.
Proof. unfold store32. now destruct is_little_endian. Qed.

Lemma and_words_nil_r (l : list Z) : and_words l [] = [].
Proof. now destruct l. Qed.

Lemma store_words_and_words (ws ms : list Z) :
  store_words is_little_endian (and_words ws ms)
  = and_words (store_words is_little_endian ws) (store_words is_little_endian ms).
Proof.
  unfold store_words. revert ms; induction ws as [|w ws IH]; intros [|m ms];
    cbn [and_words flat_map]; try reflexivity.
  - now rewrite and_words_nil_r.
  - rewrite and_words_app by (now rewrite !store32_length).
    now rewrite store32_land, IH.
Qed.

Lemma mask_array_bytes (n : Z) :
  0 <= n <= 128 ->
  store_words is_little_endian (mask_array is_little_endian n) = prefix_mask n.
Proof.
  intros H.
  assert (G : forallb (fun k => zlist_eqb
                         (store_words is_little_endian
                            (mask_array is_little_endian (Z.of_nat k)))
                         (prefix_mask (Z.of_nat k)))
                      (seq 0 129) = true).
  { destruct is_little_endian; vm_compute; reflexivity. }
  rewrite forallb_forall in G.
  specialize (G (Z.to_nat n)). rewrite Z2Nat.id in G by lia.
  apply zlist_eqb_eq. apply G. apply in_seq. lia.
Qed.

Lemma land_byte_range (b m : Z) : 0 <= b < 256 -> 0 <= Z.land b m < 256.
Proof.
  intros H.
  assert (E : Z.land b m = Z.land b m mod 2 ^ 8).
  { rewrite <- Z.land_ones by lia.
    rewrite <- Z.land_assoc, (Z.land_comm m), Z.land_assoc, Z.land_ones by lia.
    now rewrite Z.mod_small. }
  rewrite E. apply Z.mod_pos_bound. lia.
Qed.

Lemma and_words_bytes (a m : list Z) :
  Forall (fun b => 0 <= b < 256) a ->
  Forall (fun b => 0 <= b < 256) (and_words a m).
Proof.
  intros H. revert m. induction H as [|b a Hb _ IH]; intros m; [constructor|].
  destruct m as [|x m]; cbn [and_words]; constructor;
    [now apply land_byte_range | apply IH].
Qed.

Lemma and_words_length (a m : list Z) :
  length a = length m -> length (and_words a m) = length a.
Proof.
  revert m; induction a as [|x a IH]; intros [|y m] H; try discriminate;
    [reflexivity|].
  cbn [and_words length]. f_equal. apply IH. now injection H.
Qed.

Lemma prefix_mask_length (n : Z) : length (prefix_mask n) = 16%nat.
Proof. unfold prefix_mask. now rewrite length_map, length_seq. Qed.

Lemma mask_bytes_eq (a : address) (n : Z) :
  well_formed a -> 0 <= n <= 128 ->
  snd (mask is_little_endian a n) = and_words a (prefix_mask n).
Proof.
  intros Hwf Hn.
  destruct (well_formed_words is_little_endian a Hwf) as (Hr & Hl & Hs).
  unfold mask. destruct (Z.gtb_spec n 128); [lia|]. cbn [snd].
  now rewrite store_words_and_words, Hs, mask_array_bytes.
Qed.

Lemma and_prefix_well_formed (a : address) (n : Z) :
  well_formed a -> well_formed (and_words a (prefix_mask n)).
Proof.
  intros [Hlen Hb]. split.
  - rewrite and_words_length; [exact Hlen | now rewrite prefix_mask_length].
  - now apply and_words_bytes.
Qed.

(** X14: for every address and every [n] from 0 to 128, on either byte
    order, [mask n] is the byte-wise AND of the sixteen bytes with the
    128-bit mask whose upper [n] bits are set; the result is again sixteen
    bytes. *)
Theorem mask_is_bytewise_prefix_and (a : address) (n : Z) :
  well_formed a -> 0 <= n <= 128 ->
  snd (mask is_little_endian a n) = and_words a (prefix_mask n)
  /\ well_formed (snd (mask is_little_endian a n)).
Proof.
  intros Hwf Hn. split.
  - now apply mask_bytes_eq.
  - rewrite mask_bytes_eq by assumption. now apply and_prefix_well_formed.
Qed.


Lemma and_words_assoc (a p q : list Z) :
  and_words (and_words a p) q = and_words a (and_words p q).
Proof.
  revert p q; induction a as [|x a IH]; intros [|y p] [|z q];
    cbn [and_words]; try reflexivity.
  now rewrite Z.land_assoc, IH.
Qed.

Lemma prefix_mask_meet (n m : Z) :
  0 <= n <= 128 -> 0 <= m <= 128 ->
  and_words (prefix_mask n) (prefix_mask m) = prefix_mask (Z.min n m).
Proof.
  intros Hn Hm.
  assert (G : forallb (fun i => forallb (fun j =>
                zlist_eqb (and_words (prefix_mask (Z.of_nat i)) (prefix_mask (Z.of_nat j)))
                          (prefix_mask (Z.min (Z.of_nat i) (Z.of_nat j))))
                (seq 0 129)) (seq 0 129) = true) by (vm_compute; reflexivity).
  rewrite forallb_forall in G. specialize (G (Z.to_nat n) ltac:(apply in_seq; lia)).
  rewrite forallb_forall in G. specialize (G (Z.to_nat m) ltac:(apply in_seq; lia)).
  rewrite !Z2Nat.id in G by lia. now apply zlist_eqb_eq.
Qed.

(** X15: masking composes.  For every address and all [n], [m] from 0 to
    128, [mask n] followed by [mask m] gives the bytes of
    [mask (min n m)]. *)
Theorem mask_twice_is_mask_min (a : address) (n m : Z) :
  well_formed a -> 0 <= n <= 128 -> 0 <= m <= 128 ->
  snd (mask is_little_endian (snd (mask is_little_endian a n)) m)
  = snd (mask is_little_endian a (Z.min n m)).
Proof.
  intros Hwf Hn Hm.
  pose proof (mask_bytes_eq a n Hwf Hn) as E1.
  pose proof (and_prefix_well_formed a n Hwf) as W1. rewrite <- E1 in W1.
  pose proof (mask_bytes_eq _ m W1 Hm) as E2.
  pose proof (mask_bytes_eq a (Z.min n m) Hwf ltac:(lia)) as E3.
  now rewrite E2, E1, E3, and_words_assoc, prefix_mask_meet.
Qed.

Lemma firstn_and_words (k : nat) (a p : list Z) :
  firstn k (and_words a p) = and_words (firstn k a) (firstn k p).
Proof.
  revert a p; induction k as [|k IH]; intros a p; [reflexivity|].
  destruct a as [|x a], p as [|y p]; cbn [and_words firstn]; try reflexivity.
  now rewrite IH.
Qed.

Lemma and_words_all_ones (l : list Z) :
  Forall (fun b => 0 <= b < 256) l -> and_words l (repeat 255 (length l)) = l.
Proof.
  induction 1 as [|b l Hb _ IH]; [reflexivity|].
  cbn [length repeat and_words]. rewrite IH. f_equal.
  change 255 with (Z.ones 8). rewrite Z.land_ones by lia. apply Z.mod_small. lia.
Qed.

Lemma firstn_bytes (k : nat) (l : list Z) :
  Forall (fun b => 0 <= b < 256) l -> Forall (fun b => 0 <= b < 256) (firstn k l).
Proof.
  intros H. revert k. induction H as [|b l Hb _ IH]; intros [|k];
    cbn [firstn]; constructor; [exact Hb | apply IH].
Qed.

(** X16: a v4-mapped address stays v4-mapped under a mask of at least 96
    bits: for [n] from 96 to 128, [mask n] leaves the first twelve bytes of
    every address unchanged. *)
Theorem mask_keeps_v4_prefix (a : address) (n : Z) :
  well_formed a -> 96 <= n <= 128 ->
  firstn 12 (snd (mask is_little_endian a n)) = firstn 12 a.
Proof.
  intros Hwf Hn.
  pose proof (mask_bytes_eq a n Hwf ltac:(lia)) as E.
  rewrite E, firstn_and_words.
  assert (G : forallb (fun k => zlist_eqb (firstn 12 (prefix_mask (Z.of_nat k)))
                                          (repeat 255 12))
                      (seq 96 33) = true) by (vm_compute; reflexivity).
  rewrite forallb_forall in G. specialize (G (Z.to_nat n) ltac:(apply in_seq; lia)).
  rewrite Z2Nat.id in G by lia. apply zlist_eqb_eq in G. rewrite G.
  destruct Hwf as [Hlen Hb].
  assert (Hl : length (firstn 12 a) = 12%nat) by (rewrite length_firstn; lia).
  pose proof (and_words_all_ones (firstn 12 a) (firstn_bytes 12 a Hb)) as A.
  now rewrite Hl in A.
Qed.

(** X17: construction from words.  In host order the bytes stored are the
    big-endian bytes of the word values, whatever the byte order of the
    host; an [ipv4] address gets the v4-mapped prefix in front.  In network
    order the bytes are taken as they lie in memory: built from the four
    words of a sixteen-byte address, the result is that address. *)
Theorem to_array_byte_order :
  (forall w rest,
     to_array (w :: rest) ipv4 host = Some (v4_mapped_prefix ++ store32 false w))
  /\ (forall w0 w1 w2 w3 rest,
        to_array (w0 :: w1 :: w2 :: w3 :: rest) ipv6 host
        = Some (store_words false [w0; w1; w2; w3]))
  /\ (forall b0 b1 b2 b3,
        0 <= b0 < 256 -> 0 <= b1 < 256 -> 0 <= b2 < 256 -> 0 <= b3 < 256 ->
        to_array [load32 is_little_endian b0 b1 b2 b3] ipv4 network
        = Some (v4_mapped_prefix ++ [b0; b1; b2; b3]))
  /\ (forall a, well_formed a ->
        to_array (load_words is_little_endian a) ipv6 network = Some a).
Proof.
  split; [|split; [|split]].
  - intros w rest. unfold to_array, store32. now destruct is_little_endian.
  - intros w0 w1 w2 w3 rest. unfold to_array, store_words, store32.
    now destruct is_little_endian.
  - intros b0 b1 b2 b3 H0 H1 H2 H3. unfold to_array. cbn [is_host].
    rewrite andb_false_r. now rewrite store32_load32.
  - intros a Hwf.
    destruct (well_formed_words is_little_endian a Hwf) as (_ & Hl & Hs).
    unfold to_array. cbn [is_host]. rewrite andb_false_r.
    destruct (load_words is_little_endian a) as [|w0 [|w1 [|w2 [|w3 [|]]]]];
      try discriminate.
    now rewrite Hs.
Qed.

End AddressProps.

Lemma sample_well_formed : well_formed sample.
Proof.
  split; [reflexivity|].
  repeat (constructor; [split; [discriminate | reflexivity]|]). constructor.
Qed.

(** [192.168.1.2] masked to 108 bits on a little-endian host: the upper
    four bits of the fourteenth byte survive. *)
Lemma mask_is_bytewise_prefix_and_witness :
  well_formed sample
  /\ 0 <= 108 <= 128
  /\ snd (mask true sample 108)
     = [0; 0; 0; 0; 0; 0; 0; 0; 0; 0; 255; 255; 192; 160; 0; 0].
Proof.
  split; [exact sample_well_formed|]. split; [lia|].
  destruct (mask_is_bytewise_prefix_and true sample 108 sample_well_formed
              ltac:(lia)) as [E _].
  rewrite E. reflexivity.
Defined.

(** [192.168.1.2] masked to 120 and then to 108 bits, on a big-endian
    host. *)
Lemma mask_twice_is_mask_min_witness :
  well_formed sample
  /\ snd (mask false (snd (mask false sample 120)) 108)
     = snd (mask false sample 108).
Proof.
  split; [exact sample_well_formed|].
  exact (mask_twice_is_mask_min false sample 120 108 sample_well_formed
           ltac:(lia) ltac:(lia)).
Defined.

(** [192.168.1.2] masked to 104 bits keeps the v4-mapped prefix. *)
Lemma mask_keeps_v4_prefix_witness :
  well_formed sample
  /\ firstn 12 (snd (mask true sample 104)) = v4_mapped_prefix.
Proof.
  split; [exact sample_well_formed|].
  exact (mask_keeps_v4_prefix true sample 104 sample_well_formed ltac:(lia)).
Defined.

End AddressProps.

(** ** The publisher ([src/publisher.cc])

    The worker's send-rate sampling ([publisher_worker_state]) and the
    batching loop of [publisher::publish(std::vector<data>)].  The shared
    queue is not among the sources: of the queue only its capacity enters,
    as a number, and what is recorded of [publish] is the list of batches
    it hands to [queue_->produce]. *)

Module Publisher.

(** [sample_size]. *)
Definition sample_size : Z := 10.

(** [publisher_worker_state]: [size_t] samples and counter. *)
Record publisher_worker_state : Type := mk_state {
  buf : list Z;
  counter : Z;
  shutting_down : bool
}.

Definition worker_init : publisher_worker_state := mk_state [] 0 false.

(** [std::rotate(buf.begin(), buf.begin() + 1, buf.end())]. *)
Definition rotate1 (l : list Z) : list Z :=
  match l with
  | [] => []
  | x :: r => r ++ [x]
  end.

(** [buf.back() = v]; [tick] calls it on a vector of at least
    [sample_size] elements. *)
Definition set_back (l : list Z) (v : Z) : list Z :=
  match l with
  | [] => []
  | _ :: _ => removelast l ++ [v]
  end.

(** [publisher_worker_state::tick]. *)
Definition tick (st : publisher_worker_state) : publisher_worker_state :=
  mk_state (if Z.of_nat (length (buf st)) <? sample_size
            then buf st ++ [counter st]
            else set_back (rotate1 (buf st)) (counter st))
           0 (shutting_down st).

(** [publisher_worker_state::rate]: [std::accumulate] over [size_t]. *)
Definition rate (st : publisher_worker_state) : Z :=
  match buf st with
  | [] => 0
  | _ :: _ =>
      fold_left (fun a x => wrap64 (a + x)) (buf st) 0
      / Z.of_nat (length (buf st))
  end.

(** The messages that reach the worker's state: the stream source pulling
    [consumed] items from the queue, and the [tick] atom. *)
Inductive worker_msg : Type :=
| pulled (consumed : Z)
| tick_msg.

(** One message; the output is what the handler passes to [qptr->rate]. *)
Definition worker_step (st : publisher_worker_state) (m : worker_msg)
  : publisher_worker_state * list Z :=
  match m with
  | pulled consumed =>
      (if consumed >? 0
       then mk_state (buf st) (wrap64 (counter st + consumed)) (shutting_down st)
       else st, [])
  | tick_msg => let st' := tick st in (st', [rate st'])
  end.

Fixpoint worker_run (st : publisher_worker_state) (ms : list worker_msg)
  : publisher_worker_state * list Z :=
  match ms with
  | [] => (st, [])
  | m :: ms' =>
      let (st1, o1) := worker_step st m in
      let (st2, o2) := worker_run st1 ms' in
      (st2, o1 ++ o2)
  end.

Definition zsum (l : list Z) : Z := fold_right Z.add 0 l.

(** The messages of one second with the given pulls, closed by its tick,
    and of a list of seconds. *)
Definition second_msgs (s : list Z) : list worker_msg :=
  map pulled s ++ [tick_msg].

Definition msgs_of (seconds : list (list Z)) : list worker_msg :=
  flat_map second_msgs seconds.

Section Publish.

Variable A : Type.

(** The loop of [publisher::publish(std::vector<data>)] for a queue of
    capacity [t >= 0]: [xs] is the range from [i] to [e], the result lists
    the ranges from [i] to [j] passed to [queue_->produce].  [fuel] bounds
    the number of iterations; [None] when it runs out. *)
Fixpoint publish_loop (fuel : nat) (t : Z) (xs : list A) {struct fuel}
  : option (list (list A)) :=
  match xs with
  | [] => Some []
  | _ :: _ =>
      match fuel with
      | O => None
      | S fuel' =>
          let n := Z.to_nat (Z.min (Z.of_nat (length xs)) t) in
          match publish_loop fuel' t (skipn n xs) with
          | Some bs => Some (firstn n xs :: bs)
          | None => None
          end
      end
  end.

End Publish.

Arguments publish_loop {A} fuel t xs.

(** *** Facts about the publisher *)

Lemma worker_run_app (st : publisher_worker_state) (a b : list worker_msg) :
  worker_run st (a ++ b)
  = (fst (worker_run (fst (worker_run st a)) b),
     snd (worker_run st a) ++ snd (worker_run (fst (worker_run st a)) b)).
Proof.
  revert st; induction a as [|m a IH]; intros st.
  - cbn. now destruct (worker_run st b).
  - cbn [app worker_run]. destruct (worker_step st m) as [st1 o1].
    rewrite IH. destruct (worker_run st1 a) as [st2 o2]. cbn [fst snd].
    destruct (worker_run st2 b) as [st3 o3]. cbn [fst snd].
    now rewrite app_assoc.
Qed.

Lemma wrap64_add_l (a b : Z) : wrap64 (wrap64 a + b) = wrap64 (a + b).
Proof. unfold wrap64. apply Zplus_mod_idemp_l. Qed.

Lemma wrap64_small (a : Z) : 0 <= a < 2 ^ 64 -> wrap64 a = a.
Proof. apply Z.mod_small. Qed.

Lemma pulls_run (s : list Z) (st : publisher_worker_state) :
  0 <= counter st < 2 ^ 64 ->
  Forall (fun c => 0 <= c) s ->
  worker_run st (map pulled s)
  = (mk_state (buf st) (wrap64 (counter st + zsum s)) (shutting_down st), []).
Proof.
  intros Hc Hs. revert st Hc. induction Hs as [|c s Hc0 _ IH]; intros st Hc.
  - cbn. rewrite Z.add_0_r, wrap64_small by exact Hc. now destruct st.
  - cbn [map worker_run worker_step zsum fold_right].
    destruct (Z.gtb_spec c 0).
    + rewrite IH; cbn [buf counter shutting_down].
      * now rewrite wrap64_add_l, Z.add_assoc.
      * apply Z.mod_pos_bound. reflexivity.
    + assert (c = 0) by lia. subst c. rewrite IH by exact Hc.
      now rewrite Z.add_0_l.
Qed.

Lemma set_back_snoc (r : list Z) (x v : Z) : set_back (r ++ [x]) v = r ++ [v].
Proof.
  destruct r as [|y r]; [reflexivity|].
  change (set_back ((y :: r) ++ [x]) v)
    with (removelast ((y :: r) ++ [x]) ++ [v]).
  now rewrite removelast_last.
Qed.

Lemma tl_skipn (k : nat) (l : list Z) : tl (skipn k l) = skipn (S k) l.
Proof.
  revert l; induction k as [|k IH]; intros [|x l]; try reflexivity.
  cbn [skipn]. rewrite IH. reflexivity.
Qed.

Definition sample_of (s : list Z) : Z := wrap64 (zsum s).

Lemma msgs_of_snoc (S0 : list (list Z)) (s : list Z) :
  msgs_of (S0 ++ [s]) = msgs_of S0 ++ second_msgs s.
Proof.
  unfold msgs_of. rewrite flat_map_app. cbn [flat_map]. now rewrite app_nil_r.
Qed.

Lemma second_run (s : list Z) (st : publisher_worker_state) :
  0 <= counter st < 2 ^ 64 ->
  Forall (fun c => 0 <= c) s ->
  worker_run st (second_msgs s)
  = (let st' := tick (mk_state (buf st) (wrap64 (counter st + zsum s))
                               (shutting_down st)) in
     (st', [rate st'])).
Proof.
  intros Hc Hs. unfold second_msgs. rewrite worker_run_app, pulls_run by assumption.
  reflexivity.
Qed.

Lemma window_inv (seconds : list (list Z)) :
  Forall (Forall (fun c => 0 <= c)) seconds ->
  let st := fst (worker_run worker_init (msgs_of seconds)) in
  buf st = skipn (length seconds - 10) (map sample_of seconds)
  /\ counter st = 0 /\ shutting_down st = false.
Proof.
  induction seconds as [|s S0 IH] using rev_ind; intros H; cbv zeta.
  - cbn. auto.
  - apply Forall_app in H. destruct H as [H0 Hs].
    apply Forall_inv in Hs.
    specialize (IH H0). cbv zeta in IH. destruct IH as (Ib & Ic & Id).
    rewrite msgs_of_snoc, worker_run_app. cbn [fst].
    rewrite second_run by (first [exact Hs | rewrite Ic; split; [lia | reflexivity]]).
    cbv zeta. cbn [fst]. unfold tick. cbn [buf counter shutting_down].
    rewrite Ic, Id, Z.add_0_l. split; [|split; reflexivity].
    fold (sample_of s). rewrite length_app, map_app. cbn [length map].
    rewrite Ib.
    assert (L : length (skipn (length S0 - 10) (map sample_of S0))
                = Nat.min (length S0) 10).
    { rewrite length_skipn, length_map. lia. }
    rewrite L. unfold sample_size.
    destruct (Z.ltb_spec (Z.of_nat (Nat.min (length S0) 10)) 10) as [Hlt|Hge].
    + replace (length S0 - 10)%nat with 0%nat by lia.
      replace (length S0 + 1 - 10)%nat with 0%nat by lia. reflexivity.
    + rewrite skipn_app, length_map.
      replace (length S0 + 1 - 10 - length S0)%nat with 0%nat by lia.
      cbn [skipn].
      replace (length S0 + 1 - 10)%nat with (S (length S0 - 10)) by lia.
      rewrite <- tl_skipn.
      destruct (skipn (length S0 - 10) (map sample_of S0)) as [|x r] eqn:E.
      * cbn in L. lia.
      * cbn [rotate1 tl]. now rewrite set_back_snoc.
Qed.

(** X18: the worker keeps a sliding window of the last ten seconds.  After
    any number of seconds, each a list of pulls closed by a tick, the sample
    buffer holds the totals (modulo 2^64) of the last [sample_size] seconds,
    oldest first, and the counter is back at 0. *)
Theorem tick_keeps_last_ten_samples (seconds : list (list Z)) :
  Forall (Forall (fun c => 0 <= c)) seconds ->
  let st := fst (worker_run worker_init (msgs_of seconds)) in
  buf st = skipn (length seconds - Z.to_nat sample_size)
                 (map (fun s => wrap64 (zsum s)) seconds)
  /\ Z.of_nat (length (buf st)) <= sample_size
  /\ counter st = 0.
Proof.
  intros H. cbv zeta. destruct (window_inv seconds H) as (Hb & Hc & _).
  cbv zeta in Hb, Hc. split; [exact Hb|]. split; [|exact Hc].
  rewrite Hb, length_skipn, length_map. unfold sample_size. lia.
Qed.

Lemma accumulate_bounds (lo hi : Z) (l : list Z) (acc : Z) :
  0 <= lo -> 0 <= acc ->
  Forall (fun x => lo <= x <= hi) l ->
  acc + Z.of_nat (length l) * hi < 2 ^ 64 ->
  acc + Z.of_nat (length l) * lo
  <= fold_left (fun a x => wrap64 (a + x)) l acc
  <= acc + Z.of_nat (length l) * hi.
Proof.
  intros Hlo Hacc Hl. revert acc Hacc. induction Hl as [|x l Hx _ IH]; intros acc Hacc Hb.
  - cbn. lia.
  - cbn [fold_left]. cbn [length] in *. rewrite Nat2Z.inj_succ in *.
    assert (0 <= Z.of_nat (length l) * hi) by nia.
    rewrite wrap64_small by nia.
    specialize (IH (acc + x) ltac:(lia) ltac:(nia)). nia.
Qed.

Lemma rate_bounds (lo hi : Z) (st : publisher_worker_state) :
  0 <= lo -> 10 * hi < 2 ^ 64 ->
  buf st <> [] -> (length (buf st) <= 10)%nat ->
  Forall (fun x => lo <= x <= hi) (buf st) ->
  lo <= rate st <= hi.
Proof.
  intros Hlo Hhi Hne Hlen Hb. unfold rate.
  destruct (buf st) as [|x l] eqn:E; [congruence|]. rewrite <- E in *.
  assert (Hpos : 0 < Z.of_nat (length (buf st))) by (rewrite E; cbn; lia).
  assert (0 <= hi).
  { rewrite E in Hb. apply Forall_inv in Hb. lia. }
  pose proof (accumulate_bounds lo hi (buf st) 0 Hlo ltac:(lia) Hb ltac:(nia)) as B.
  split.
  - apply Z.div_le_lower_bound; lia.
  - apply Z.div_le_upper_bound; lia.
Qed.

(** X19: the published send rate stays within the per-second totals.  If
    every second's pulls add up to a value between [lo] and [hi] (with
    [10 * hi] below 2^64), every rate the worker publishes lies between [lo]
    and [hi]; at a constant throughput the rate is that throughput from the
    first tick on. *)
Theorem published_rate_within_throughput (lo hi : Z) (seconds : list (list Z)) :
  0 <= lo -> 10 * hi < 2 ^ 64 ->
  Forall (fun s => Forall (fun c => 0 <= c) s /\ lo <= zsum s <= hi) seconds ->
  let out := snd (worker_run worker_init (msgs_of seconds)) in
  length out = length seconds
  /\ Forall (fun r => lo <= r <= hi) out.
Proof.
  intros Hlo Hhi. induction seconds as [|s S0 IH] using rev_ind; intros H; cbv zeta.
  - cbn. auto.
  - assert (Hall : Forall (Forall (fun c => 0 <= c)) (S0 ++ [s])).
    { eapply Forall_impl; [|exact H]. cbn. tauto. }
    destruct (window_inv _ Hall) as (Wb & _). cbv zeta in Wb.
    pose proof H as H'. apply Forall_app in H'. destruct H' as [H0 Hs].
    apply Forall_inv in Hs. destruct Hs as [Hs _].
    assert (Hall0 : Forall (Forall (fun c => 0 <= c)) S0).
    { eapply Forall_impl; [|exact H0]. cbn. tauto. }
    destruct (window_inv _ Hall0) as (_ & Wc & _). cbv zeta in Wc.
    specialize (IH H0). cbv zeta in IH. destruct IH as [IHl IHf].
    revert Wb. rewrite msgs_of_snoc, worker_run_app. cbn [fst snd].
    rewrite second_run by (first [exact Hs | rewrite Wc; split; [lia | reflexivity]]).
    cbv zeta. cbn [fst snd]. intros Wb.
    split.
    + rewrite !length_app, IHl. reflexivity.
    + apply Forall_app. split; [exact IHf|]. constructor; [|constructor].
      apply rate_bounds; try assumption.
      * rewrite Wb. intros E. apply (f_equal (@length Z)) in E.
        rewrite length_skipn, length_map, length_app in E. cbn in E. lia.
      * rewrite Wb, length_skipn, length_map. lia.
      * rewrite Wb. apply Forall_forall. intros x Hx.
        assert (Hin : In x (map sample_of (S0 ++ [s]))).
        { rewrite <- (firstn_skipn (length (S0 ++ [s]) - 10)).
          apply in_or_app. now right. }
        apply in_map_iff in Hin. destruct Hin as (s' & <- & Hs').
        rewrite Forall_forall in H. destruct (H s' Hs') as [_ Hr].
        unfold sample_of. rewrite wrap64_small; lia.
Qed.

Section PublishFacts.

Variable A : Type.

Lemma publish_loop_step (t : Z) (fuel : nat) (xs : list A) :
  xs <> [] ->
  publish_loop (S fuel) t xs
  = match publish_loop fuel t
            (skipn (Z.to_nat (Z.min (Z.of_nat (length xs)) t)) xs) with
    | Some bs => Some (firstn (Z.to_nat (Z.min (Z.of_nat (length xs)) t)) xs :: bs)
    | None => None
    end.
Proof. destruct xs; [congruence | reflexivity]. Qed.

(** X20: [publish] of a vector on a queue of capacity [t > 0] returns after
    at most [length xs] rounds; the batches it hands to the queue are, in
    order, consecutive pieces of [xs] that together give [xs] again, none
    empty and none longer than [t], all but the last exactly [t] long, and
    their number is [length xs / t] rounded up. *)
Theorem publish_batches (t : Z) (fuel : nat) (xs : list A) :
  0 < t -> (length xs <= fuel)%nat ->
  exists bs,
    publish_loop fuel t xs = Some bs
    /\ concat bs = xs
    /\ Forall (fun b => 0 < Z.of_nat (length b) <= t) bs
    /\ Forall (fun b => Z.of_nat (length b) = t) (removelast bs)
    /\ Z.of_nat (length bs) = (Z.of_nat (length xs) + t - 1) / t.
Proof.
  intros Ht. revert xs. induction fuel as [|fuel IH]; intros xs Hf.
  - destruct xs; [|cbn in Hf; lia]. exists []. cbn.
    repeat split; try constructor. symmetry. apply Z.div_small. lia.
  - destruct xs as [|x xs'].
    { exists []. cbn. repeat split; try constructor.
      symmetry. apply Z.div_small. lia. }
    remember (x :: xs') as xs eqn:Exs.
    assert (Hlen : (0 < length xs)%nat) by (subst xs; cbn; lia).
    set (n := Z.to_nat (Z.min (Z.of_nat (length xs)) t)).
    assert (Hn : (0 < n <= length xs)%nat) by (unfold n; lia).
    assert (Hnt : Z.of_nat n <= t) by (unfold n; lia).
    destruct (IH (skipn n xs)) as (bs & E & Hc & Hs & Hr & Hk).
    { rewrite length_skipn. lia. }
    exists (firstn n xs :: bs).
    assert (Hfirst : length (firstn n xs) = n) by (rewrite length_firstn; lia).
    split; [|split; [|split; [|split]]].
    + rewrite publish_loop_step by (subst xs; discriminate).
      fold n. now rewrite E.
    + cbn [concat]. rewrite Hc. apply firstn_skipn.
    + constructor; [rewrite Hfirst; lia | exact Hs].
    + destruct bs as [|b bs']; [constructor|].
      change (removelast (firstn n xs :: b :: bs'))
        with (firstn n xs :: removelast (b :: bs')).
      constructor; [|exact Hr].
      rewrite Hfirst.
      assert (Hb : 0 < Z.of_nat (length b)) by (apply Forall_inv in Hs; lia).
      assert (Hsk : (0 < length (skipn n xs))%nat).
      { rewrite <- Hc. cbn [concat]. rewrite length_app. lia. }
      rewrite length_skipn in Hsk. unfold n in *. lia.
    + cbn [length]. rewrite Nat2Z.inj_succ, Hk, length_skipn.
      replace (Z.of_nat (length xs) + t - 1)
        with (Z.of_nat (length xs) - 1 + 1 * t) by lia.
      rewrite Z.div_add by lia.
      destruct (Z.le_gt_cases (Z.of_nat (length xs)) t) as [Hle|Hgt].
      * replace (length xs - n)%nat with 0%nat by (unfold n; lia).
        rewrite (Z.div_small (Z.of_nat (length xs) - 1)) by lia.
        rewrite Z.div_small by (cbn; lia). lia.
      * replace (Z.of_nat (length xs - n) + t - 1)
          with (Z.of_nat (length xs) - 1) by (unfold n; lia).
        lia.
Qed.

(** X21: the loop of [publish] relies on a capacity above 0: on a queue of
    capacity 0 and a non-empty vector no number of rounds finishes it. *)
Theorem publish_needs_capacity (fuel : nat) (xs : list A) :
  xs <> [] -> publish_loop fuel 0 xs = None.
Proof.
  intros Hne. induction fuel as [|fuel IH]; destruct xs as [|x xs'];
    try congruence; [reflexivity|].
  cbn [publish_loop].
  replace (Z.to_nat (Z.min (Z.of_nat (length (x :: xs'))) 0)) with 0%nat by lia.
  cbn [skipn]. now rewrite IH.
Qed.

End PublishFacts.

(** *** Concrete runs *)

(** Twelve seconds with 1, 2, ..., 12 items pulled: the window holds the
    last ten totals. *)
Lemma tick_keeps_last_ten_samples_witness :
  let seconds := map (fun k => [k]) (zseq 1 12) in
  Forall (Forall (fun c => 0 <= c)) seconds
  /\ buf (fst (worker_run worker_init (msgs_of seconds))) = zseq 3 10.
Proof.
  cbv zeta.
  assert (H : Forall (Forall (fun c => 0 <= c)) (map (fun k => [k]) (zseq 1 12))).
  { cbn. repeat (constructor; [constructor; [lia | constructor]|]). constructor. }
  split; [exact H|].
  destruct (tick_keeps_last_ten_samples _ H) as [Hb _]. rewrite Hb. reflexivity.
Defined.

(** Three seconds with 5 items each, pulled as 2 + 3: three rates are
    published, each 5. *)
Lemma published_rate_within_throughput_witness :
  let seconds := [[2; 3]; [2; 3]; [2; 3]] in
  0 <= 5
  /\ 10 * 5 < 2 ^ 64
  /\ snd (worker_run worker_init (msgs_of seconds)) = [5; 5; 5].
Proof.
  cbv zeta.
  assert (H : Forall (fun s => Forall (fun c => 0 <= c) s /\ 5 <= zsum s <= 5)
                     [[2; 3]; [2; 3]; [2; 3]]).
  { repeat (constructor;
            [split; [repeat (constructor; [lia|]); constructor | cbn; lia]|]).
    constructor. }
  destruct (published_rate_within_throughput 5 5 [[2; 3]; [2; 3]; [2; 3]]
              ltac:(lia) ltac:(lia) H) as [_ _].
  split; [lia|]. split; [lia|]. reflexivity.
Defined.

(** Seven items on a queue of capacity 3: batches of 3, 3 and 1. *)
Lemma publish_batches_witness :
  0 < 3
  /\ publish_loop 7 3 [1; 2; 3; 4; 5; 6; 7]%nat
     = Some [[1; 2; 3]; [4; 5; 6]; [7]]%nat.
Proof.
  split; [lia|].
  destruct (publish_batches nat 3 7 [1; 2; 3; 4; 5; 6; 7]%nat ltac:(lia)
              ltac:(cbn; lia)) as (bs & _).
  reflexivity.
Defined.

(** One item, capacity 0, one hundred rounds. *)
Lemma publish_needs_capacity_witness :
  publish_loop 100 0 [1%nat] = None.
Proof.
  apply (publish_needs_capacity nat 100 [1%nat]). discriminate.
Defined.

End Publisher.

(** ** Bro-level messages ([broker/bro.hh])

    A message is the vector [msg_ = {ProtocolVersion, count(type), content}].
    [get<T>] on a [data] holding another alternative, and an index outside a
    vector, have no result here ([None]).  [LogCreate] and [LogWrite] carry
    [enum_value]s, an alternative the [data] above does not list, and are
    left out. *)

Module Bro.

Import Master.

(** [ProtocolVersion]. *)
Definition ProtocolVersion : Z := 1.

(** [Message::Type] with the values of its enumerators. *)
Inductive MessageType : Type :=
| Type_Event | Type_LogCreate | Type_LogWrite | Type_IdentifierUpdate
| Type_Batch | Type_RelayEvent.

Definition type_value (t : MessageType) : Z :=
  match t with
  | Type_Event => 1
  | Type_LogCreate => 2
  | Type_LogWrite => 3
  | Type_IdentifierUpdate => 4
  | Type_Batch => 5
  | Type_RelayEvent => 6
  end.

(** [get<count>], [get<std::string>], [get<vector>], [get<set>]. *)
Definition get_count (d : data) : option Z :=
  match d with d_count n => Some n | _ => None end.

Definition get_string (d : data) : option String.string :=
  match d with d_string s => Some s | _ => None end.

Definition get_vector (d : data) : option (list data) :=
  match d with d_vector xs => Some xs | _ => None end.

Definition get_set (d : data) : option (list data) :=
  match d with d_set xs => Some xs | _ => None end.

Definition bind {X Y : Type} (o : option X) (f : X -> option Y) : option Y :=
  match o with Some x => f x | None => None end.

(** [Message(Type type, vector content)]. *)
Definition Message (t : MessageType) (content : list data) : list data :=
  [d_count ProtocolVersion; d_count (type_value t); d_vector content].

(** [Message(data msg)]. *)
Definition Message_of_data (msg : data) : option (list data) := get_vector msg.

(** [as_data]. *)
Definition as_data (msg_ : list data) : data := d_vector msg_.

(** [type()], as the value of the enumerator. *)
Definition type (msg_ : list data) : option Z :=
  bind (nth_error msg_ 1) get_count.

(** [static type(const data& msg)]. *)
Definition type_of_data (msg : data) : option Z :=
  bind (get_vector msg) type.

(** [msg_[2]] as a vector, then its [i]-th element. *)
Definition content_at (msg_ : list data) (i : nat) : option data :=
  bind (bind (nth_error msg_ 2) get_vector) (fun c => nth_error c i).

(** [Event]. *)
Definition Event (name : String.string) (args : list data) : list data :=
  Message Type_Event [d_string name; d_vector args].

Definition Event_name (msg_ : list data) : option String.string :=
  bind (content_at msg_ 0) get_string.

Definition Event_args (msg_ : list data) : option (list data) :=
  bind (content_at msg_ 1) get_vector.

(** [RelayEvent]. *)
Definition RelayEvent (relay_topics : list data) (name : String.string)
  (args : list data) : list data :=
  Message Type_RelayEvent [d_set relay_topics; d_string name; d_vector args].

Definition RelayEvent_topics (msg_ : list data) : option (list data) :=
  bind (content_at msg_ 0) get_set.

Definition RelayEvent_name (msg_ : list data) : option String.string :=
  bind (content_at msg_ 1) get_string.

Definition RelayEvent_args (msg_ : list data) : option (list data) :=
  bind (content_at msg_ 2) get_vector.

(** [Batch]. *)
Definition Batch (msgs : list data) : list data := Message Type_Batch msgs.

Definition Batch_batch (msg_ : list data) : option (list data) :=
  bind (nth_error msg_ 2) get_vector.

(** [IdentifierUpdate]. *)
Definition IdentifierUpdate (id_name : String.string) (id_value : data)
  : list data :=
  Message Type_IdentifierUpdate [d_string id_name; id_value].

Definition IdentifierUpdate_id_name (msg_ : list data) : option String.string :=
  bind (content_at msg_ 0) get_string.

Definition IdentifierUpdate_id_value (msg_ : list data) : option data :=
  content_at msg_ 1.

(** An event read back from its [data]: [Event(data msg)], then [name()]
    and [args()]. *)
Definition read_event (msg : data) : option (String.string * list data) :=
  bind (Message_of_data msg) (fun m =>
  bind (Event_name m) (fun n =>
  bind (Event_args m) (fun a => Some (n, a)))).

(** X23: messages survive the trip through [data].  For each of [Event],
    [RelayEvent], [Batch] and [IdentifierUpdate], the message built from its
    fields, turned into [data] and read back, carries the type tag of its
    class and gives every field back through its accessor; a batch built
    from any list of events gives the events back in order. *)
Theorem messages_round_trip :
  (forall name args,
     let d := as_data (Event name args) in
     type_of_data d = Some (type_value Type_Event)
     /\ bind (Message_of_data d) Event_name = Some name
     /\ bind (Message_of_data d) Event_args = Some args)
  /\ (forall topics name args,
        let d := as_data (RelayEvent topics name args) in
        type_of_data d = Some (type_value Type_RelayEvent)
        /\ bind (Message_of_data d) RelayEvent_topics = Some topics
        /\ bind (Message_of_data d) RelayEvent_name = Some name
        /\ bind (Message_of_data d) RelayEvent_args = Some args)
  /\ (forall id_name id_value,
        let d := as_data (IdentifierUpdate id_name id_value) in
        type_of_data d = Some (type_value Type_IdentifierUpdate)
        /\ bind (Message_of_data d) IdentifierUpdate_id_name = Some id_name
        /\ bind (Message_of_data d) IdentifierUpdate_id_value = Some id_value)
  /\ (forall es : list (String.string * list data),
        let d := as_data (Batch (map (fun e => as_data (Event (fst e) (snd e))) es)) in
        type_of_data d = Some (type_value Type_Batch)
        /\ exists msgs,
             bind (Message_of_data d) Batch_batch = Some msgs
             /\ map read_event msgs = map Some es).
Proof.
  split; [|split; [|split]].
  - intros name args. cbv zeta. repeat split.
  - intros topics name args. cbv zeta. repeat split.
  - intros id_name id_value. cbv zeta. repeat split.
  - intros es. cbv zeta. split; [reflexivity|].
    exists (map (fun e => as_data (Event (fst e) (snd e))) es).
    split; [reflexivity|].
    induction es as [|[n a] es IH]; [reflexivity|].
    cbn [map fst snd]. now rewrite IH.
Qed.

End Bro.
